(** * The Watcher of the observer core (core/observer/watcher.js) and the
      error-routing policy (core/util/error.js), embedded in Rocq, with
      the code around them: computed getters, [$watch] and the instance
      events (core/instance/state.js), and the virtual nodes
      (core/instance/index.js).

    A watcher object is passed explicitly as [this]; everything it shares
    with the rest of the runtime (the subscriber lists of the dependency
    subjects, the active-watcher stack, the owning components, the data
    heap, the scheduler queue, the configuration) lives in a [World]. *)

From Stdlib Require Import Floats.PrimFloat.
From stdpp Require Import gmap strings list.

#[local] Set Warnings "-clear-no-such-hyp,-level-tolerance".

(** ** JavaScript values and the data heap *)

(** A thrown value, identified by what [err.toString()] prints. *)
Definition error : Type := string.

Inductive JSValue : Type :=
| VUndefined
| VNull
| VBool (b : bool)
| VNum (x : float)
| VStr (s : string)
| VRef (l : nat).          (* an object or an array, by reference *)

(** [a === b] on JavaScript values: numbers by IEEE equality, objects by
    reference. *)
Definition strict_eq (a b : JSValue) : bool :=
  match a, b with
  | VUndefined, VUndefined => true
  | VNull, VNull => true
  | VBool x, VBool y => Bool.eqb x y
  | VNum x, VNum y => PrimFloat.eqb x y
  | VStr x, VStr y => String.eqb x y
  | VRef x, VRef y => Nat.eqb x y
  | _, _ => false
  end.

(** [isObject(obj)]: [obj !== null && typeof obj === 'object']. *)
Definition isObject (v : JSValue) : bool :=
  match v with VRef _ => true | _ => false end.

(** One own enumerable property (or array element). [slotDep] is the id of
    the dependency subject its accessor pair closes over, when the slot is
    reactive. *)
Record Slot : Type := mkSlot {
  key : string;
  slotDep : option nat;
  stored : JSValue
}.

(** A heap object. [__ob__] holds [val.__ob__.dep.id] when the object is
    wrapped by an observed container. *)
Record Obj : Type := mkObj {
  isArray : bool;
  extensible : bool;
  __ob__ : option nat;
  slots : list Slot
}.

Abbreviation Heap := (gmap nat Obj).

Definition Array_isArray (h : Heap) (v : JSValue) : bool :=
  match v with
  | VRef l => match h !! l with Some o => isArray o | None => false end
  | _ => false
  end.

Definition Object_isExtensible (h : Heap) (v : JSValue) : bool :=
  match v with
  | VRef l => match h !! l with Some o => extensible o | None => false end
  | _ => false
  end.

(** Modelled from the spec: the read accessor of a reactive slot, which
    lives in the observer module that is not part of the sources at hand.
    A read "calls the slot's Dependency Subject registration, and -- if the
    active watcher is in deep mode or the stored value is itself an Observed
    Container -- also registers the nested container's own-shape Dependency
    Subject, recursing into the value". A slot that is not reactive
    registers nothing. The list holds the slot's subject and the nested
    container's own; the subjects a read registers further while
    "recursing into the value" are not listed, so it is a lower bound of
    what a read registers. *)
Definition read_slot (h : Heap) (s : Slot) : list nat :=
  match slotDep s with
  | None => []
  | Some d =>
      d :: match stored s with
           | VRef l => match h !! l with
                       | Some o => match __ob__ o with Some c => [c] | None => [] end
                       | None => []
                       end
           | _ => []
           end
  end.

(** ** Deep traversal *)

(** What one traversal has done so far: the [seen] id set, the dependency
    subjects its reads registered (oldest first) and the heap locations of
    the objects it went into (oldest first). *)
Record Walk : Type := mkWalk {
  seen : gset nat;
  reads : list nat;
  entered : list nat
}.

Definition walk_read (ds : list nat) (w : Walk) : Walk :=
  mkWalk (seen w) (reads w ++ ds) (entered w).

(** The [__ob__] test of [_traverse]: [None] when the container's id is
    already in [seen] (the function returns), otherwise the walk with the
    id recorded and the object entered. *)
Definition walk_enter (l : nat) (o : Obj) (w : Walk) : option Walk :=
  match __ob__ o with
  | Some depId =>
      if bool_decide (depId ∈ seen w) then None
      else Some (mkWalk ({[depId]} ∪ seen w) (reads w) (entered w ++ [l]))
  | None => Some (mkWalk (seen w) (reads w) (entered w ++ [l]))
  end.

(** [_traverse(val, seen)]. The recursion of the source is not structural
    (the heap may be cyclic), so the model counts the call depth down from
    [fuel]; [None] means the depth was exhausted. Both loops of the source
    walk the elements last to first. *)
Fixpoint _traverse (fuel : nat) (h : Heap) (val : JSValue) (w : Walk) : option Walk :=
  match fuel with
  | O => None
  | S n =>
      let isA := Array_isArray h val in
      if (negb isA && negb (isObject val)) || negb (Object_isExtensible h val)
      then Some w
      else
        match val with
        | VRef l =>
            match h !! l with
            | Some o =>
                match walk_enter l o w with
                | None => Some w
                | Some w1 =>
                    foldl (fun acc s =>
                             match acc with
                             | Some w' => _traverse n h (stored s) (walk_read (read_slot h s) w')
                             | None => None
                             end)
                          (Some w1) (rev (slots o))
                end
            | None => Some w
            end
        | _ => Some w
        end
  end.

(** [traverse(val)]: [seenObjects.clear()] and then [_traverse]. *)
Definition traverse (fuel : nat) (h : Heap) (val : JSValue) : option Walk :=
  _traverse fuel h val (mkWalk ∅ [] []).

(** ** Watchers and the world around them *)

(** What one call of a read function does: the dependency subjects whose
    accessors it went through, in order, and how it ended. *)
Record Run : Type := mkRun {
  touched : list nat;
  outcome : JSValue + error       (* returned value, or thrown error *)
}.

(** A read function, called as [getter.call(vm, vm)] on the current data. *)
Definition Getter : Type := Heap -> nat -> Run.

(** A change callback, called as [cb.call(vm, value, oldValue)]; [Some e]
    when it throws [e]. *)
Definition Callback : Type := Heap -> nat -> JSValue -> JSValue -> option error.

Record Watcher : Type := mkWatcher {
  vm : nat;
  expression : string;
  cb : Callback;
  id : nat;
  deep : bool;
  user : bool;
  lazy : bool;
  sync : bool;
  dirty : bool;
  active : bool;
  deps : list nat;             (* Array<Dep>, each subject by its id *)
  newDeps : list nat;
  depIds : gset nat;
  newDepIds : gset nat;
  getter : Getter;
  value : JSValue
}.

(** The owning scope, as far as the watcher touches it. *)
Record Component : Type := mkComponent {
  _watchers : list nat;
  _isBeingDestroyed : bool
}.

(** Modelled from the spec: the Scheduler Queue ("ordered collection of
    pending watcher references, a parallel set of queued identifiers, a
    currently flushing flag, a flush index cursor"); scheduler.js is not
    part of the sources at hand. *)
Record Scheduler : Type := mkScheduler {
  queue : list nat;
  has : gset nat;
  flushing : bool;
  waiting : bool;
  index : nat
}.

(** A function installed as [config.errorHandler]: called with the error,
    the scope and the label, it returns ([None]) or throws. *)
Definition ErrorHandler : Type := error -> nat -> string -> option error.

(** [config.errorHandler] ([None] when unset), [inBrowser],
    [typeof console !== 'undefined'], and
    [process.env.NODE_ENV === 'production']. *)
Record Config : Type := mkConfig {
  errorHandler : option ErrorHandler;
  inBrowser : bool;
  hasConsole : bool;
  production : bool
}.

(** What the outside sees happen. *)
Inductive Event : Type :=
| EvGetter (w : nat)                              (* getter.call(vm, vm) *)
| EvCallback (w : nat) (newv oldv : JSValue)        (* cb.call(vm, value, oldValue) *)
| EvAddSub (dep w : nat)                          (* dep.addSub(this) *)
| EvRemoveSub (dep w : nat)                       (* dep.removeSub(this) *)
| EvErrorHandler (e : error) (v : nat) (info : string)
| EvWarn (msg : string) (v : nat)
| EvConsoleError (e : error).

Record World : Type := mkWorld {
  uid : nat;                       (* let uid = 0 *)
  subs : gmap nat (list nat);      (* dep.subs, per subject id *)
  targetStack : list nat;          (* Dep.target on top *)
  seenObjects : gset nat;
  vms : gmap nat Component;
  heap : Heap;
  sched : Scheduler;
  config : Config;
  log : list Event                 (* newest first *)
}.

Definition set_uid (x : nat) (g : World) : World :=
  mkWorld x (subs g) (targetStack g) (seenObjects g) (vms g) (heap g) (sched g) (config g) (log g).
Definition set_subs (x : gmap nat (list nat)) (g : World) : World :=
  mkWorld (uid g) x (targetStack g) (seenObjects g) (vms g) (heap g) (sched g) (config g) (log g).
Definition set_targetStack (x : list nat) (g : World) : World :=
  mkWorld (uid g) (subs g) x (seenObjects g) (vms g) (heap g) (sched g) (config g) (log g).
Definition set_seenObjects (x : gset nat) (g : World) : World :=
  mkWorld (uid g) (subs g) (targetStack g) x (vms g) (heap g) (sched g) (config g) (log g).
Definition set_vms (x : gmap nat Component) (g : World) : World :=
  mkWorld (uid g) (subs g) (targetStack g) (seenObjects g) x (heap g) (sched g) (config g) (log g).
Definition set_sched (x : Scheduler) (g : World) : World :=
  mkWorld (uid g) (subs g) (targetStack g) (seenObjects g) (vms g) (heap g) x (config g) (log g).
Definition emit (e : Event) (g : World) : World :=
  mkWorld (uid g) (subs g) (targetStack g) (seenObjects g) (vms g) (heap g) (sched g) (config g) (e :: log g).

Definition set_dirty (x : bool) (t : Watcher) : Watcher :=
  mkWatcher (vm t) (expression t) (cb t) (id t) (deep t) (user t) (lazy t) (sync t)
            x (active t) (deps t) (newDeps t) (depIds t) (newDepIds t) (getter t) (value t).
Definition set_active (x : bool) (t : Watcher) : Watcher :=
  mkWatcher (vm t) (expression t) (cb t) (id t) (deep t) (user t) (lazy t) (sync t)
            (dirty t) x (deps t) (newDeps t) (depIds t) (newDepIds t) (getter t) (value t).
Definition set_value (x : JSValue) (t : Watcher) : Watcher :=
  mkWatcher (vm t) (expression t) (cb t) (id t) (deep t) (user t) (lazy t) (sync t)
            (dirty t) (active t) (deps t) (newDeps t) (depIds t) (newDepIds t) (getter t) x.
Definition set_tracking (d nd : list nat) (i ni : gset nat) (t : Watcher) : Watcher :=
  mkWatcher (vm t) (expression t) (cb t) (id t) (deep t) (user t) (lazy t) (sync t)
            (dirty t) (active t) d nd i ni (getter t) (value t).

(** The state a method works on: its [this] and the world. *)
Definition St : Type := Watcher * World.

(** How a call ends: it returns, it throws (the state is the one at the
    throw), or the traversal depth ran out. *)
Inductive Completion (A : Type) : Type :=
| Return (a : A) (st : St)
| Throw (e : error) (st : St)
| Diverge.
Arguments Return {A} a st.
Arguments Throw {A} e st.
Arguments Diverge {A}.

Definition bind {A B : Type} (c : Completion A) (k : A -> St -> Completion B) : Completion B :=
  match c with
  | Return a st => k a st
  | Throw e st => Throw e st
  | Diverge => Diverge
  end.

Notation "'do' ( x , s ) <- c ; k" := (bind c (fun x s => k))
  (at level 10, x name, s name, c at level 100, k at level 200).

(** The state a call leaves behind, when it leaves one. *)
Definition final {A : Type} (c : Completion A) : option St :=
  match c with
  | Return _ st => Some st
  | Throw _ st => Some st
  | Diverge => None
  end.

(** ** The collaborators of the watcher *)

Definition subs_of (g : World) (dep : nat) : list nat := default [] (subs g !! dep).

Definition component (g : World) (v : nat) : Component :=
  default (mkComponent [] false) (vms g !! v).

(** Modelled from the spec: [remove(arr, item)] of the shared utilities,
    which is not part of the sources at hand: "remove self from the owning
    scope's watcher list". The first occurrence goes, as with
    indexOf and splice. *)
Fixpoint remove (arr : list nat) (item : nat) : list nat :=
  match arr with
  | [] => []
  | x :: rest => if Nat.eqb x item then rest else x :: remove rest item
  end.

(** Modelled from the spec: the Dependency Subject (dep.js is not part of
    the sources at hand). "subscribe(watcher) adds watcher if absent (no-op
    if present); unsubscribe(watcher) removes it". *)
Definition addSub (dep w : nat) (g : World) : World :=
  if bool_decide (w ∈ subs_of g dep) then g
  else set_subs (<[dep := subs_of g dep ++ [w]]> (subs g)) g.

Definition removeSub (dep w : nat) (g : World) : World :=
  set_subs (<[dep := remove (subs_of g dep) w]> (subs g)) g.

(** Modelled from the spec: the Active-Watcher Stack (dep.js again).
    "push(watcher) / pop() maintain a stack; current() returns the top or
    none". *)
Definition pushTarget (w : nat) (g : World) : World := set_targetStack (w :: targetStack g) g.
Definition popTarget (g : World) : World := set_targetStack (tail (targetStack g)) g.
Definition Dep_target (g : World) : option nat := head (targetStack g).

(** Modelled from the spec: [warn(msg, vm)] of the debug utilities reports
    a non-fatal warning. *)
Definition warn (msg : string) (v : nat) (g : World) : World := emit (EvWarn msg v) g.

Definition dquote : string := String (Ascii.ascii_of_nat 34) EmptyString.

(** Modelled from the spec: [queueWatcher] of the scheduler. "if watcher's
    identifier is not currently queued, add its identifier to the dedup set;
    if no flush is pending, insert directly and schedule a deferred flush
    callback. If a flush is already running, insert the watcher at the
    correct ascending-identifier position relative to entries not yet
    processed". *)
Fixpoint insert_from_end (w : nat) (r : list nat) : list nat :=
  match r with
  | [] => [w]
  | x :: r' => if bool_decide (w < x) then x :: insert_from_end w r' else w :: x :: r'
  end.

Definition queueWatcher (w : nat) (g : World) : World :=
  let s := sched g in
  if bool_decide (w ∈ has s) then g
  else
    let q := if flushing s then
               take (S (index s)) (queue s)
                 ++ rev (insert_from_end w (rev (drop (S (index s)) (queue s))))
             else queue s ++ [w] in
    set_sched (mkScheduler q ({[w]} ∪ has s) (flushing s) true (index s)) g.

(** ** core/util/error.js *)

(** The configured handler is an outside function; calling it is recorded.
    The call is not wrapped: what the handler throws leaves [handleError]. *)
Definition handleError (err : error) (v : nat) (info : string) (st : St) : Completion unit :=
  let '(this, g) := st in
  match errorHandler (config g) with
  | Some handler =>
      let g := emit (EvErrorHandler err v info) g in
      match handler err v info with
      | None => Return tt (this, g)
      | Some e => Throw e (this, g)
      end
  | None =>
      let g := if negb (production (config g))
               then warn ("Error in " +:+ info +:+ ": " +:+ dquote +:+ err +:+ dquote) v g
               else g in
      if inBrowser (config g) && hasConsole (config g) then
        Return tt (this, emit (EvConsoleError err) g)
      else
        Throw err (this, g)
  end.

(** ** core/observer/watcher.js *)

(** [addDep(dep)] *)
Definition addDep (dep : nat) (st : St) : St :=
  let '(this, g) := st in
  let id_ := dep in
  if negb (bool_decide (id_ ∈ newDepIds this)) then
    let this' := set_tracking (deps this) (newDeps this ++ [dep])
                              (depIds this) ({[id_]} ∪ newDepIds this) this in
    if negb (bool_decide (id_ ∈ depIds this)) then
      (this', addSub dep (id this) (emit (EvAddSub dep (id this)) g))
    else (this', g)
  else st.

(** [cleanupDeps()]: the loop runs over [deps] from the last index down. *)
Definition cleanupDeps (st : St) : St :=
  let '(this, g) := st in
  let g' := foldl (fun g dep =>
                     if negb (bool_decide (dep ∈ newDepIds this))
                     then removeSub dep (id this) (emit (EvRemoveSub dep (id this)) g)
                     else g)
                  g (rev (deps this)) in
  (set_tracking (newDeps this) [] (newDepIds this) ∅ this, g').

(** The accessors a read goes through call [dep.depend()], which hands the
    subject to [Dep.target.addDep]; inside [get] the target is [this]. *)
Definition track (ds : list nat) (st : St) : St :=
  foldl (fun st dep => addDep dep st) st ds.

(** [get()]. The reads of the deep traversal are registered after the walk;
    registering does not touch the heap, so the order does not matter. *)
Definition get (fuel : nat) (st : St) : Completion JSValue :=
  let '(this, g) := st in
  let g := pushTarget (id this) g in
  let r := getter this (heap g) (vm this) in
  let st := track (touched r) (this, emit (EvGetter (id this)) g) in
  do (value, st) <-
     match outcome r with
     | inl v => Return v st
     | inr e =>
         if user this then
           do (_, st) <- handleError e (vm this)
                ("getter for watcher " +:+ dquote +:+ expression this +:+ dquote) st;
           Return VUndefined st
         else Throw e st
     end;
  do (_, st) <-
     (if deep this then
        match traverse fuel (heap st.2) value with
        | Some w => Return tt (track (reads w) (st.1, set_seenObjects (seen w) st.2))
        | None => Diverge
        end
      else Return tt st);
  Return value (cleanupDeps (st.1, popTarget st.2)).

(** [queueWatcher(this)] on the state of a method. *)
Definition enqueue (st : St) : St := (st.1, queueWatcher (id st.1) st.2).

(** [run()] *)
Definition run (fuel : nat) (st : St) : Completion unit :=
  if active st.1 then
    do (value_, st) <- get fuel st;
    let this := st.1 in
    if negb (strict_eq value_ (value this)) || isObject value_ || deep this then
      let oldValue := value this in
      let this := set_value value_ this in
      let g := emit (EvCallback (id this) value_ oldValue) st.2 in
      match cb this (heap g) (vm this) value_ oldValue with
      | None => Return tt (this, g)
      | Some e =>
          if user this then
            handleError e (vm this)
              ("callback for watcher " +:+ dquote +:+ expression this +:+ dquote) (this, g)
          else Throw e (this, g)
      end
    else Return tt st
  else Return tt st.

(** [update()] *)
Definition update (fuel : nat) (st : St) : Completion unit :=
  if lazy st.1 then Return tt (set_dirty true st.1, st.2)
  else if sync st.1 then run fuel st
  else Return tt (enqueue st).

(** [evaluate()] *)
Definition evaluate (fuel : nat) (st : St) : Completion unit :=
  do (v, st) <- get fuel st;
  Return tt (set_dirty false (set_value v st.1), st.2).

(** [teardown()] *)
Definition teardown (st : St) : St :=
  let '(this, g) := st in
  if active this then
    let c := component g (vm this) in
    let g := if negb (_isBeingDestroyed c)
             then set_vms (<[vm this := mkComponent (remove (_watchers c) (id this))
                                                     (_isBeingDestroyed c)]> (vms g)) g
             else g in
    let g := foldl (fun g dep => removeSub dep (id this) (emit (EvRemoveSub dep (id this)) g))
                   g (rev (deps this)) in
    (set_active false this, g)
  else st.

(** The constructor. *)
Record Options : Type := mkOptions {
  opt_deep : bool;
  opt_user : bool;
  opt_lazy : bool;
  opt_sync : bool
}.

(** [expOrFn: string | Function]; a function comes with its source text,
    which is what [toString()] gives. *)
Inductive ExpOrFn : Type :=
| Expr (path : string)
| Func (source : string) (f : Getter).

Definition toString (e : ExpOrFn) : string :=
  match e with Expr p => p | Func src _ => src end.

(** [function () {}] *)
Definition noop_getter : Getter := fun _ _ => mkRun [] (inl VUndefined).

Section Construction.

(** [parsePath] of the shared utilities is not part of the sources at
    hand; [None] is its falsy result for a path it does not accept. *)
Variable parsePath : string -> option Getter.

(** [new Watcher(vm, expOrFn, cb, options)]. The object pushed on
    [vm._watchers] is the watcher itself, known by the id it is about to
    take from [++uid]. *)
Definition new_Watcher (fuel : nat) (vm_ : nat) (expOrFn : ExpOrFn) (cb_ : Callback)
           (options : option Options) (g : World) : Completion unit :=
  let this_id := S (uid g) in
  let c := component g vm_ in
  let g := set_vms (<[vm_ := mkComponent (_watchers c ++ [this_id]) (_isBeingDestroyed c)]>
                      (vms g)) g in
  let o := match options with
           | Some o => o
           | None => mkOptions false false false false
           end in
  let g := set_uid this_id g in
  let expression_ := if negb (production (config g)) then toString expOrFn else "" in
  let '(getter_, g) :=
    match expOrFn with
    | Func _ f => (f, g)
    | Expr path =>
        match parsePath path with
        | Some f => (f, g)
        | None =>
            (noop_getter,
             if negb (production (config g))
             then warn ("Failed watching path: " +:+ dquote +:+ path +:+ dquote +:+ " "
                        +:+ "Watcher only accepts simple dot-delimited paths. "
                        +:+ "For full control, use a function instead.") vm_ g
             else g)
        end
    end in
  let this := mkWatcher vm_ expression_ cb_ this_id
                        (opt_deep o) (opt_user o) (opt_lazy o) (opt_sync o)
                        (opt_lazy o) true [] [] ∅ ∅ getter_ VUndefined in
  if lazy this then Return tt (this, g)
  else do (v, st) <- get fuel (this, g); Return tt (set_value v st.1, st.2).

End Construction.

(** ** More of core/observer/watcher.js and core/instance/state.js *)

(** [depend()]: [this.deps[i].depend()] from the last index down.
    Modelled from the spec for [Dep.depend] (dep.js is not part of the
    sources at hand): "if an active watcher exists, asks that watcher to
    record a dependency on this subject; no side effects when no watcher is
    active". [target] is [Dep.target], the watcher object on top of the
    active-watcher stack, when there is one. *)
Definition depend (this : Watcher) (target : option Watcher) (g : World)
  : option Watcher * World :=
  match target with
  | Some t => let st := track (rev (deps this)) (t, g) in (Some st.1, st.2)
  | None => (None, g)
  end.

(** How a call of a computed getter ends: with the value, the computed
    watcher (when the key has one), [Dep.target] and the world; with an
    error thrown by the evaluation; or not at all. *)
Inductive Computed : Type :=
| CReturn (v : JSValue) (watcher target : option Watcher) (g : World)
| CThrow (e : error) (watcher : Watcher) (target : option Watcher) (g : World)
| CDiverge.

(** [computedGetter] of [createComputedGetter(key)]; [watcher] is
    [this._computedWatchers && this._computedWatchers[key]]. *)
Definition computedGetter (fuel : nat) (watcher target : option Watcher) (g : World) : Computed :=
  match watcher with
  | Some watcher =>
      match (if dirty watcher then evaluate fuel (watcher, g) else Return tt (watcher, g)) with
      | Return _ st =>
          let '(target', g') :=
            match target with
            | Some _ => depend st.1 target st.2
            | None => (target, st.2)
            end in
          CReturn (value st.1) (Some st.1) target' g'
      | Throw e st => CThrow e st.1 target st.2
      | Diverge => CDiverge
      end
  | None => CReturn VUndefined None target g
  end.

(** The options object of [$watch]: the watcher options and [immediate]. *)
Record WatchOptions : Type := mkWatchOptions {
  w_options : Options;
  immediate : bool
}.

Section Watching.

Variable parsePath : string -> option Getter.

(** [Vue.prototype.$watch], up to the function it returns. *)
Definition Vue_watch (fuel : nat) (vm_ : nat) (expOrFn : ExpOrFn) (cb_ : Callback)
           (options : option WatchOptions) (g : World) : Completion unit :=
  let options := match options with
                 | Some o => o
                 | None => mkWatchOptions (mkOptions false false false false) false
                 end in
  let o := mkOptions (opt_deep (w_options options)) true
                     (opt_lazy (w_options options)) (opt_sync (w_options options)) in
  do (_, st) <- new_Watcher parsePath fuel vm_ expOrFn cb_ (Some o) g;
  if immediate options then
    let g := emit (EvCallback (id st.1) (value st.1) VUndefined) st.2 in
    match cb_ (heap g) vm_ (value st.1) VUndefined with
    | None => Return tt (st.1, g)
    | Some e => Throw e (st.1, g)
    end
  else Return tt st.

End Watching.

(** The function [$watch] returns: [unwatchFn]. *)
Definition unwatchFn (st : St) : St := teardown st.

(** ** The virtual node class (the VNode part of core/instance/index.js) *)

Module VNodes.

(** [VNodeData], as far as the class looks into it: the object, by
    reference, and its [key]. *)
Record VNodeData : Type := mkData {
  data_ref : nat;
  data_key : JSValue
}.

(** Objects held by a node (DOM node, component, options, child array,
    parent node) are references; [None] is [undefined]. *)
Record VNode : Type := mkVNode {
  tag : option string;
  data : option VNodeData;
  children : option nat;
  text : option string;
  elm : option nat;
  ns : option string;
  context : option nat;
  functionalContext : option nat;
  key : JSValue;
  componentOptions : option nat;
  componentInstance : option nat;
  parent : option nat;
  raw : bool;
  isStatic : bool;
  isRootInsert : bool;
  isComment : bool;
  isCloned : bool;
  isOnce : bool
}.

(** The constructor; [this.key = data && data.key]. *)
Definition new_VNode (tag_ : option string) (data_ : option VNodeData) (children_ : option nat)
           (text_ : option string) (elm_ context_ componentOptions_ : option nat) : VNode :=
  mkVNode tag_ data_ children_ text_ elm_ None context_ None
          (match data_ with Some d => data_key d | None => VUndefined end)
          componentOptions_ None None false false true false false false.

(** [get child ()] *)
Definition child (v : VNode) : option nat := componentInstance v.

Definition set_text (x : option string) (v : VNode) : VNode :=
  mkVNode (tag v) (data v) (children v) x (elm v) (ns v) (context v) (functionalContext v)
          (key v) (componentOptions v) (componentInstance v) (parent v) (raw v) (isStatic v)
          (isRootInsert v) (isComment v) (isCloned v) (isOnce v).

Definition set_isComment (x : bool) (v : VNode) : VNode :=
  mkVNode (tag v) (data v) (children v) (text v) (elm v) (ns v) (context v) (functionalContext v)
          (key v) (componentOptions v) (componentInstance v) (parent v) (raw v) (isStatic v)
          (isRootInsert v) x (isCloned v) (isOnce v).

Definition createEmptyVNode : VNode :=
  let node := new_VNode None None None None None None None in
  let node := set_text (Some "") node in
  set_isComment true node.

Section Text.

(** [String(val)] on a number is the host's formatting. *)
Variable String_of_number : float -> string.

(** [createTextVNode(val: string | number)] *)
Definition createTextVNode (val : string + float) : VNode :=
  new_VNode None None None
            (Some (match val with inl s => s | inr x => String_of_number x end))
            None None None.

End Text.

(** [cloneVNode]: a fresh node from the seven constructor arguments, then
    [ns], [isStatic], [key] and [isCloned] are assigned. *)
Definition cloneVNode (vnode : VNode) : VNode :=
  let cloned := new_VNode (tag vnode) (data vnode) (children vnode) (text vnode) (elm vnode)
                          (context vnode) (componentOptions vnode) in
  mkVNode (tag cloned) (data cloned) (children cloned) (text cloned) (elm cloned)
          (ns vnode) (context cloned) (functionalContext cloned)
          (key vnode) (componentOptions cloned) (componentInstance cloned) (parent cloned)
          (raw cloned) (isStatic vnode) (isRootInsert cloned) (isComment cloned)
          true (isOnce cloned).

(** [cloneVNodes]: [new Array(len)] is a list of holes, filled by index. *)
Definition cloneVNodes (vnodes : list VNode) : list (option VNode) :=
  let len := length vnodes in
  foldl (fun res i =>
           match vnodes !! i with
           | Some v => <[i := Some (cloneVNode v)]> res
           | None => res
           end)
        (replicate len None) (seq 0 len).

End VNodes.

(** ** The events mixin (the events part of core/instance/state.js) *)

Module Events.

(** A registered function: one given by the caller, known by its identity
    (and taken to carry no [fn] property of its own), or the [on] closure
    of one [$once] call, with the event it closes over and its [on.fn]. *)
Inductive Handler : Type :=
| Fn (f : nat)
| On (w : nat) (event : string) (fn : Handler).

(** [a === b] on functions. *)
Definition same (a b : Handler) : bool :=
  match a, b with
  | Fn f, Fn g => Nat.eqb f g
  | On w _ _, On w' _ _ => Nat.eqb w w'
  | _, _ => false
  end.

(** [cb === fn || cb.fn === fn], where [fn = None] is [undefined]. *)
Definition matches (cb : Handler) (fn : option Handler) : bool :=
  match fn with Some h => same cb h | None => false end
  || match cb, fn with
     | On _ _ f, Some h => same f h
     | On _ _ _, None => false
     | Fn _, None => true
     | Fn _, Some _ => false
     end.

(** The component, as far as the mixin touches it. An entry of [_events]
    is an array or [null] ([None]). [closures] counts the [on] closures made
    so far and gives the next one its identity; [invoked] records the calls
    of the caller's functions, newest first. *)
Record Vm : Type := mkVm {
  _events : gmap string (option (list Handler));
  _hasHookEvent : bool;
  closures : nat;
  invoked : list (nat * list JSValue);
  tips : list string
}.

Definition set_events (x : gmap string (option (list Handler))) (vm : Vm) : Vm :=
  mkVm x (_hasHookEvent vm) (closures vm) (invoked vm) (tips vm).

(** The array under [event], when the entry is truthy. *)
Definition cbs_of (vm : Vm) (event : string) : option (list Handler) :=
  match _events vm !! event with
  | Some (Some cbs) => Some cbs
  | _ => None
  end.

(** [event: string | Array<string>] *)
Inductive EventArg : Type :=
| One (event : string)
| Many (events : list string).

(** [hookRE.test(event)] with [hookRE = /^hook:/]. *)
Definition hookRE_test (event : string) : bool := String.prefix "hook:" event.

(** The string branch of [$on]. *)
Definition on1 (event : string) (fn : Handler) (vm : Vm) : Vm :=
  let cbs := match cbs_of vm event with Some cbs => cbs | None => [] end in
  mkVm (<[event := Some (cbs ++ [fn])]> (_events vm))
       (if hookRE_test event then true else _hasHookEvent vm)
       (closures vm) (invoked vm) (tips vm).

(** [$on(event, fn)] *)
Definition on (event : EventArg) (fn : Handler) (vm : Vm) : Vm :=
  match event with
  | Many events => foldl (fun vm e => on1 e fn vm) vm events
  | One e => on1 e fn vm
  end.

(** [$once(event, fn)] *)
Definition once (event : string) (fn : Handler) (vm : Vm) : Vm :=
  let on_ := On (closures vm) event fn in
  on (One event) on_
     (mkVm (_events vm) (_hasHookEvent vm) (S (closures vm)) (invoked vm) (tips vm)).

(** The loop of [$off] over [cbs], from the last index down: the first
    match met is spliced out. *)
Fixpoint splice_first (fn : option Handler) (l : list Handler) : list Handler :=
  match l with
  | [] => []
  | cb :: rest => if matches cb fn then rest else cb :: splice_first fn rest
  end.

Definition splice_last (fn : option Handler) (cbs : list Handler) : list Handler :=
  rev (splice_first fn (rev cbs)).

(** The string branch of [$off]: [fn = None] when [arguments.length] is 1,
    [Some fn] when a second argument was passed, even [undefined]. *)
Definition off1 (event : string) (fn : option (option Handler)) (vm : Vm) : Vm :=
  match cbs_of vm event with
  | None => vm
  | Some cbs =>
      match fn with
      | None => set_events (<[event := None]> (_events vm)) vm
      | Some fn => set_events (<[event := Some (splice_last fn cbs)]> (_events vm)) vm
      end
  end.

(** The ways [$off] is called: by [arguments.length]. *)
Inductive OffArgs : Type :=
| OffAll
| OffEvent (event : EventArg)
| OffHandler (event : EventArg) (fn : option Handler).

(** [$off(event, fn)]. The array branch calls [this.$off(event[i], fn)],
    which always passes two arguments. *)
Definition off (args : OffArgs) (vm : Vm) : Vm :=
  match args with
  | OffAll => set_events ∅ vm
  | OffEvent (Many events) => foldl (fun vm e => off1 e (Some None) vm) vm events
  | OffHandler (Many events) fn => foldl (fun vm e => off1 e (Some fn) vm) vm events
  | OffEvent (One e) => off1 e None vm
  | OffHandler (One e) fn => off1 e (Some fn) vm
  end.

(** What calling a function of the caller with the given arguments does:
    it returns ([None]) or throws. *)
Definition Behaviour : Type := nat -> list JSValue -> option error.

(** [cb.apply(vm, args)]; the [on] closure first takes itself off. *)
Fixpoint invoke (beh : Behaviour) (cb : Handler) (args : list JSValue) (vm : Vm)
  : Vm + error * Vm :=
  match cb with
  | Fn f =>
      let vm := mkVm (_events vm) (_hasHookEvent vm) (closures vm)
                     ((f, args) :: invoked vm) (tips vm) in
      match beh f args with
      | None => inl vm
      | Some e => inr (e, vm)
      end
  | On w event fn => invoke beh fn args (off (OffHandler (One event) (Some cb)) vm)
  end.

(** The loop of [$emit]. Its bound and, for more than one handler, its
    array are fixed before the first call, and each element is read before
    it is called, so it runs over the handlers registered at that point. *)
Fixpoint run_handlers (beh : Behaviour) (cbs : list Handler) (args : list JSValue) (vm : Vm)
  : Vm + error * Vm :=
  match cbs with
  | [] => inl vm
  | cb :: rest =>
      match invoke beh cb args vm with
      | inl vm' => run_handlers beh rest args vm'
      | inr x => inr x
      end
  end.

Section Emit.

(** [process.env.NODE_ENV === 'production'], [String.prototype.toLowerCase],
    [formatComponentName(vm)] and [hyphenate] are not part of the sources
    at hand. *)
Variable production : bool.
Variable toLowerCase : string -> string.
Variable formatComponentName : string.
Variable hyphenate : string -> string.

Definition tip_message (lowerCaseEvent event : string) : string :=
  "Event " +:+ dquote +:+ lowerCaseEvent +:+ dquote +:+ " is emitted in component "
  +:+ formatComponentName +:+ " but the handler is registered for " +:+ dquote +:+ event
  +:+ dquote +:+ ". "
  +:+ "Note that HTML attributes are case-insensitive and you cannot use "
  +:+ "v-on to listen to camelCase events when using in-DOM templates. "
  +:+ "You should probably use " +:+ dquote +:+ hyphenate event +:+ dquote
  +:+ " instead of " +:+ dquote +:+ event +:+ dquote +:+ ".".

(** [$emit(event, ...args)] *)
Definition emit (beh : Behaviour) (event : string) (args : list JSValue) (vm : Vm)
  : Vm + error * Vm :=
  let vm :=
    if negb production then
      let lowerCaseEvent := toLowerCase event in
      if negb (String.eqb lowerCaseEvent event)
         && match cbs_of vm lowerCaseEvent with Some _ => true | None => false end
      then mkVm (_events vm) (_hasHookEvent vm) (closures vm) (invoked vm)
                (tip_message lowerCaseEvent event :: tips vm)
      else vm
    else vm in
  match cbs_of vm event with
  | Some cbs => run_handlers beh cbs args vm
  | None => inl vm
  end.

End Emit.

(** A component without events. *)
Definition vm0 : Vm := mkVm ∅ false 0 [] [].

End Events.

(** ** Observations used by the properties *)

Definition is_call (e : Event) : bool :=
  match e with EvGetter _ | EvCallback _ _ _ => true | _ => false end.

(** The getter and callback invocations in the log, newest first. *)
Definition calls (g : World) : list Event := List.filter is_call (log g).

(** [t'] is [t] up to the four dependency-tracking fields. *)
Definition same_but_tracking (t t' : Watcher) : Prop :=
  t' = set_tracking (deps t') (newDeps t') (depIds t') (newDepIds t') t.

(** [g'] is [g] up to the subscriber lists, the target stack, the seen set
    and the log. *)
Definition same_outside (g g' : World) : Prop :=
  uid g' = uid g /\ vms g' = vms g /\ heap g' = heap g /\
  sched g' = sched g /\ config g' = config g.

Definition frame (st st' : St) : Prop :=
  same_but_tracking st.1 st'.1 /\ same_outside st.2 st'.2.

(** The unsubscription loops of [cleanupDeps] and [teardown]: over [l],
    leave every subject that [p] selects. *)
Definition unsubscribe (p : nat -> bool) (w : nat) (l : list nat) (g : World) : World :=
  foldl (fun g dep => if p dep then removeSub dep w (emit (EvRemoveSub dep w) g) else g) g l.

(** The subjects the deep traversal of [v] reads; none when the watcher is
    not deep. *)
Definition deep_reads (fuel : nat) (this : Watcher) (h : Heap) (v : JSValue) : list nat :=
  if deep this then
    match traverse fuel h v with Some w => reads w | None => [] end
  else [].

(** The subjects read during the evaluation of [this] in [g] that gives [v]:
    those of the read function, then those of the deep traversal. *)
Definition evaluation_reads (fuel : nat) (this : Watcher) (g : World) (v : JSValue) : list nat :=
  touched (getter this (heap g) (vm this)) ++ deep_reads fuel this (heap g) v.

(** Between evaluations the working set is empty and the id set mirrors
    the dependency list. An evaluation that is cut short by an exception
    leaves a watcher that is not settled. *)
Definition settled (t : Watcher) : Prop :=
  newDeps t = [] /\ newDepIds t = ∅ /\ depIds t = list_to_set (deps t).

(** A subscriber appears at most once in every subscriber list. *)
Definition unique_subscribers (g : World) : Prop := forall d, NoDup (subs_of g d).

(** The watcher is subscribed to exactly its current dependencies. *)
Definition subscribed (st : St) : Prop :=
  forall d, id st.1 ∈ subs_of st.2 d <-> d ∈ deps st.1.

(** Where an evaluation of [t], started in [g], stands after the reads
    [rs]. *)
Definition collecting (t : Watcher) (g : World) (rs : list nat) (st : St) : Prop :=
  deps st.1 = deps t /\ depIds st.1 = depIds t /\ id st.1 = id t
  /\ newDepIds st.1 = list_to_set rs
  /\ NoDup (newDeps st.1)
  /\ (forall d, d ∈ newDeps st.1 <-> d ∈ rs)
  /\ unique_subscribers st.2
  /\ (forall d x, x ≠ id t -> (x ∈ subs_of st.2 d <-> x ∈ subs_of g d))
  /\ (forall d, id t ∈ subs_of st.2 d <-> id t ∈ subs_of g d \/ (d ∈ rs /\ d ∉ depIds t)).

Definition set_heap (h : Heap) (g : World) : World :=
  mkWorld (uid g) (subs g) (targetStack g) (seenObjects g) (vms g) h (sched g) (config g) (log g).

Definition set_log (l : list Event) (g : World) : World :=
  mkWorld (uid g) (subs g) (targetStack g) (seenObjects g) (vms g) (heap g) (sched g) (config g) l.

Definition is_warn (e : Event) : bool :=
  match e with EvWarn _ _ => true | _ => false end.

(** The condition under which [run] stores the value and calls back. *)
Definition fires (this : Watcher) (value_ : JSValue) : bool :=
  negb (strict_eq value_ (value this)) || isObject value_ || deep this.

(** The context in which [handleError] logs instead of throwing. *)
Definition interactive (c : Config) : bool := inBrowser c && hasConsole c.

(** The world before anything has happened. *)
Definition world0 (c : Config) : World :=
  mkWorld 0 ∅ [] ∅ ∅ ∅ (mkScheduler [] ∅ false false 0) c [].

(** A handler that returns, and one that throws the error it was given. *)
Definition quiet_handler : ErrorHandler := fun _ _ _ => None.
Definition rethrowing_handler : ErrorHandler := fun e _ _ => Some e.

Definition dev_config : Config := mkConfig None true true false.
Definition node_config : Config := mkConfig None false true false.
Definition prod_config : Config := mkConfig (Some quiet_handler) true true true.
Definition strict_config : Config := mkConfig (Some rethrowing_handler) true true false.

(** The warning [handleError] gives outside production when no handler is
    configured. *)
Definition error_warning (c : Config) (err : error) (v : nat) (info : string) : list Event :=
  if production c then []
  else [EvWarn ("Error in " +:+ info +:+ ": " +:+ dquote +:+ err +:+ dquote) v].

Definition no_paths : string -> option Getter := fun _ => None.
Definition quiet_cb : Callback := fun _ _ _ _ => None.

(** A fresh non-lazy watcher of scope 1 that reads nothing. *)
Definition plain_watcher : Watcher :=
  mkWatcher 1 "" quiet_cb 1 false false false false false true [] [] ∅ ∅ noop_getter VUndefined.

Definition const_getter (ds : list nat) (v : JSValue) : Getter := fun _ _ => mkRun ds (inl v).
Definition throwing_getter (ds : list nat) (e : error) : Getter := fun _ _ => mkRun ds (inr e).

(** The state a call ended in, [d] if it did not end. *)
Definition state_of {A : Type} (d : St) (c : Completion A) : St := default d (final c).

Definition lazy_options : Options := mkOptions false false true false.
Definition user_options : Options := mkOptions false true false false.

(** A computed-style watcher that was evaluated once and then torn down. *)
Definition lazy_torn : St :=
  teardown
    (state_of (plain_watcher, world0 dev_config)
       (evaluate 0
          (state_of (plain_watcher, world0 dev_config)
             (new_Watcher no_paths 0 1 (Func "f" (const_getter [1] (VNum 1))) quiet_cb
                          (Some lazy_options) (world0 dev_config))))).

(** A batched watcher that was torn down. *)
Definition async_torn : St :=
  teardown
    (state_of (plain_watcher, world0 dev_config)
       (new_Watcher no_paths 0 1 (Func "f" (const_getter [1] (VNum 1))) quiet_cb
                    None (world0 dev_config))).

(** A batched watcher of scope 1 reading subjects 1, 2 and 1 again. *)
Definition live_watcher : St :=
  state_of (plain_watcher, world0 dev_config)
    (new_Watcher no_paths 0 1 (Func "f" (const_getter [1; 2; 1] (VNum 1))) quiet_cb
                 None (world0 dev_config)).

(** A watcher whose read function always gives [NaN], constructed. *)
Definition nan_watcher : St :=
  state_of (plain_watcher, world0 dev_config)
    (new_Watcher no_paths 0 1 (Func "f" (const_getter [1] (VNum PrimFloat.nan))) quiet_cb
                 None (world0 dev_config)).

(** A fresh watcher of scope 1 whose read function goes through the
    subjects 1, 2 and 1 again and gives 1. *)
Definition reader : Watcher :=
  mkWatcher 1 "" quiet_cb 1 false false false false false true [] [] ∅ ∅
            (const_getter [1; 2; 1] (VNum 1)) VUndefined.

(** The tail of [get], from the deep traversal on, for the value [v]. *)
Definition finish_get (fuel : nat) (deep_ : bool) (v : JSValue) (st : St) : Completion JSValue :=
  do (_, st) <-
     (if deep_ then
        match traverse fuel (heap st.2) v with
        | Some w => Return tt (track (reads w) (st.1, set_seenObjects (seen w) st.2))
        | None => Diverge
        end
      else Return tt st);
  Return v (cleanupDeps (st.1, popTarget st.2)).

(** The state [get] hands to the read function's outcome: the watcher is
    the target and the reads of the read function are recorded. *)
Definition after_reads (this : Watcher) (g : World) : St :=
  track (touched (getter this (heap g) (vm this)))
        (this, emit (EvGetter (id this)) (pushTarget (id this) g)).

Definition getter_info (this : Watcher) : string :=
  "getter for watcher " +:+ dquote +:+ expression this +:+ dquote.

(** A user watcher of scope 1 whose read function goes through subject 1
    and then throws. *)
Definition failing_user : Watcher :=
  mkWatcher 1 "" quiet_cb 1 false true false false false true [] [] ∅ ∅
            (throwing_getter [1] "boom") VUndefined.

(** The same read function on an internal (non-user) watcher. *)
Definition failing_internal : Watcher :=
  mkWatcher 1 "" quiet_cb 1 false false false false false true [] [] ∅ ∅
            (throwing_getter [1] "boom") VUndefined.

(** The events of the log that [p] selects, newest first. *)
Definition events (p : Event -> bool) (g : World) : list Event := List.filter p (log g).

(** What was reported: handler calls, console errors and warnings. *)
Definition is_report (e : Event) : bool :=
  match e with
  | EvErrorHandler _ _ _ | EvConsoleError _ | EvWarn _ _ => true
  | _ => false
  end.

(** The container ids ([__ob__.dep.id]) of the objects at [ls], in order;
    locations without an observed object contribute nothing. *)
Definition obs_ids (h : Heap) (ls : list nat) : list nat :=
  omap (fun l => match h !! l with Some o => __ob__ o | None => None end) ls.

(** [w'] continues the walk [w]: it entered the further objects [es],
    whose container ids are pairwise different, were not seen before and
    are exactly what [seen] gained. *)
Definition continues (h : Heap) (w w' : Walk) : Prop :=
  exists es, entered w' = entered w ++ es
             /\ NoDup (obs_ids h es)
             /\ (forall d, d ∈ obs_ids h es -> d ∉ seen w)
             /\ seen w' = seen w ∪ list_to_set (obs_ids h es).

(** The rank of a value, for bounding the depth: one more than the rank of
    its location for an object that no container wraps, 0 otherwise. *)
Definition value_rank (h : Heap) (rank : nat -> nat) (v : JSValue) : nat :=
  match v with
  | VRef l => match h !! l with
              | Some o => match __ob__ o with None => S (rank l) | Some _ => 0 end
              | None => 0
              end
  | _ => 0
  end.

(** A call depth that is enough for [_traverse] on [v] when the container
    ids of the heap lie in [U], [seen_] of them are seen already and ranks
    are at most [R]. *)
Definition depth_needed (h : Heap) (rank : nat -> nat) (U : gset nat) (R : nat)
           (seen_ : gset nat) (v : JSValue) : nat :=
  size (U ∖ seen_) * (R + 2) + value_rank h rank v + 1.

(** Along slots of objects that no container wraps, the rank goes down
    whenever the slot holds another such object; ranks are at most [R]. *)
Definition ranked (h : Heap) (rank : nat -> nat) (R : nat) : Prop :=
  (forall l, rank l <= R)
  /\ (forall l o s l' o',
        h !! l = Some o -> __ob__ o = None -> s ∈ slots o -> stored s = VRef l' ->
        h !! l' = Some o' -> __ob__ o' = None -> rank l' < rank l).

(** Every container id of the heap is in [U]. *)
Definition ids_within (h : Heap) (U : gset nat) : Prop :=
  forall l o d, h !! l = Some o -> __ob__ o = Some d -> d ∈ U.

(** Two observed objects that hold each other. *)
Definition ring_heap : Heap :=
  <[0 := mkObj false true (Some 10) [mkSlot "next" (Some 20) (VRef 1)]]>
  (<[1 := mkObj false true (Some 11) [mkSlot "prev" (Some 21) (VRef 0)]]> ∅).

(** The loop over the slots of one object, on the depth [n]. *)
Definition visit_slots (n : nat) (h : Heap) (acc : option Walk) (l : list Slot) : option Walk :=
  foldl (fun acc s =>
           match acc with
           | Some w' => _traverse n h (stored s) (walk_read (read_slot h s) w')
           | None => None
           end) acc l.

(** The locations in [C] lie on cycles that no observed container guards:
    each holds an extensible object without [__ob__] with a slot that
    stores another location of [C]. *)
Definition unguarded (h : Heap) (C : nat -> Prop) : Prop :=
  forall l, C l ->
    exists o s l', h !! l = Some o /\ extensible o = true /\ __ob__ o = None
                   /\ s ∈ slots o /\ stored s = VRef l' /\ C l'.

(** A plain object that holds itself. *)
Definition loop_heap : Heap :=
  <[0 := mkObj false true None [mkSlot "self" None (VRef 0)]]> ∅.

(** The read function the constructor settles on. *)
Definition resolved_getter (parsePath : string -> option Getter) (e : ExpOrFn) : Getter :=
  match e with
  | Func _ f => f
  | Expr path => match parsePath path with Some f => f | None => noop_getter end
  end.

Definition options_or_default (options : option Options) : Options :=
  match options with Some o => o | None => mkOptions false false false false end.

Definition bad_path_message (path : string) : string :=
  "Failed watching path: " +:+ dquote +:+ path +:+ dquote +:+ " "
  +:+ "Watcher only accepts simple dot-delimited paths. "
  +:+ "For full control, use a function instead.".

(** What the constructor reports: the warning for a path that did not
    parse, outside production. *)
Definition construction_reports (parsePath : string -> option Getter) (vm_ : nat)
           (e : ExpOrFn) (c : Config) : list Event :=
  match e with
  | Func _ _ => []
  | Expr path =>
      match parsePath path with
      | Some _ => []
      | None => if production c then [] else [EvWarn (bad_path_message path) vm_]
      end
  end.

(** The watcher as the constructor has it before [this.value] is set. *)
Definition fresh_watcher (parsePath : string -> option Getter) (vm_ : nat) (e : ExpOrFn)
           (cb_ : Callback) (options : option Options) (g : World) : Watcher :=
  let o := options_or_default options in
  mkWatcher vm_ (if negb (production (config g)) then toString e else "") cb_ (S (uid g))
            (opt_deep o) (opt_user o) (opt_lazy o) (opt_sync o) (opt_lazy o) true
            [] [] ∅ ∅ (resolved_getter parsePath e) VUndefined.

(** The world at that point: the watcher is on the scope's list, [uid] is
    its id, and the warning, if any, is out. *)
Definition registered (parsePath : string -> option Getter) (vm_ : nat) (e : ExpOrFn)
           (g : World) : World :=
  mkWorld (S (uid g)) (subs g) (targetStack g) (seenObjects g)
          (<[vm_ := mkComponent (_watchers (component g vm_) ++ [S (uid g)])
                                (_isBeingDestroyed (component g vm_))]> (vms g))
          (heap g) (sched g) (config g)
          (construction_reports parsePath vm_ e (config g) ++ log g).

(** A path expression that [no_paths] does not accept, watched eagerly in
    scope 7 of a production build. *)
Definition bad_path_construction : Completion unit :=
  new_Watcher no_paths 1 7 (Expr "a b") quiet_cb None (world0 prod_config).

(** A computed-style watcher over subjects 1 and 2, constructed. *)
Definition computed_watcher : St :=
  state_of (plain_watcher, world0 dev_config)
    (new_Watcher no_paths 0 1 (Func "f" (const_getter [1; 2] (VNum 3))) quiet_cb
                 (Some lazy_options) (world0 dev_config)).

(** A watcher in the middle of its own evaluation, to read a computed
    property from. *)
Definition reading_watcher : Watcher :=
  mkWatcher 1 "" quiet_cb 9 false false false false false true [] [] ∅ ∅
            noop_getter VUndefined.

Definition throwing_cb : Callback := fun _ _ _ _ => Some "cb failed".

(** The options [$watch] passes to the constructor, and its [immediate]. *)
Definition watch_options (options : option WatchOptions) : Options :=
  match options with
  | Some o => mkOptions (opt_deep (w_options o)) true (opt_lazy (w_options o)) (opt_sync (w_options o))
  | None => mkOptions false true false false
  end.

Definition watch_immediate (options : option WatchOptions) : bool :=
  match options with Some o => immediate o | None => false end.


(** The handlers registered under [event]; none for a missing or [null]
    entry. *)
Definition handlers (vm : Events.Vm) (event : string) : list Events.Handler :=
  default [] (Events.cbs_of vm event).

(** The record of calling the functions [fs] in order with [args], newest
    first. *)
Definition calls_of (fs : list nat) (args : list JSValue) : list (nat * list JSValue) :=
  rev ((fun f => (f, args)) <$> fs).

Definition quiet_behaviour : Events.Behaviour := fun _ _ => None.

(** Stand-ins for the host's [toLowerCase] and for [hyphenate]. *)
Definition as_is : string -> string := fun s => s.

Definition failing_behaviour : Events.Behaviour :=
  fun f _ => if Nat.eqb f 2 then Some "handler failed" else None.

(** A component with the functions 1 and 2 registered under "tick". *)
Definition ticking : Events.Vm :=
  Events.on (Events.One "tick") (Events.Fn 2)
    (Events.on (Events.One "tick") (Events.Fn 1) Events.vm0).

Definition callback_info (this : Watcher) : string :=
  "callback for watcher " +:+ dquote +:+ expression this +:+ dquote.

(** A user watcher over subject 1 with the stored value 0, whose read
    function now gives 1 and whose callback throws. *)
Definition failing_callback_watcher : Watcher :=
  mkWatcher 1 "" throwing_cb 1 false true false false false true [1] [] {[1]} ∅
            (const_getter [1] (VNum 1)) (VNum 0).

(** [w'] continues [w] and has read every reactive slot of every object
    it entered since. *)
Definition reads_slots (h : Heap) (w w' : Walk) : Prop :=
  (forall d, d ∈ reads w -> d ∈ reads w')
  /\ exists es, entered w' = entered w ++ es
                /\ forall l o s d, l ∈ es -> h !! l = Some o -> s ∈ slots o ->
                                   slotDep s = Some d -> d ∈ reads w'.


(** An instance whose only handler of ["tick"] was taken off again: the
    event is left with an empty array. *)
Definition emptied : Events.Vm :=
  Events.off (Events.OffHandler (Events.One "tick") (Some (Events.Fn 1)))
    (Events.on (Events.One "tick") (Events.Fn 1) Events.vm0).

(** * Properties *)

(** The state behind an equation [Some st = Some st'], without unfolding
    what [st] is. *)
Ltac same_state :=
  let H := fresh "Hst" in
  intros H; apply (inj Some) in H; subst.


(** ** Lists with one occurrence removed *)

Lemma remove_absent (l : list nat) (w : nat) : w ∉ l -> remove l w = l.
Proof.
  induction l as [|x l IH]; simpl; intros Hn; [done|].
  apply not_elem_of_cons in Hn as [Hne Hn].
  destruct (Nat.eqb_spec x w); [congruence|]. by rewrite IH.
Qed.

Lemma remove_incl (l : list nat) (w x : nat) : x ∈ remove l w -> x ∈ l.
Proof.
  induction l as [|y l IH]; simpl; [done|].
  destruct (Nat.eqb_spec y w); set_solver.
Qed.

Lemma remove_other (l : list nat) (w x : nat) : x ≠ w -> x ∈ l -> x ∈ remove l w.
Proof.
  intros Hne. induction l as [|y l IH]; simpl; [done|].
  destruct (Nat.eqb_spec y w); set_solver.
Qed.

Lemma remove_NoDup (l : list nat) (w : nat) : NoDup l -> NoDup (remove l w).
Proof.
  induction 1 as [|y l Hy Hl IH]; simpl; [constructor|].
  destruct (Nat.eqb_spec y w); [done|].
  constructor; [|done]. intros Hin. apply Hy. by eapply remove_incl.
Qed.

Lemma remove_gone (l : list nat) (w : nat) : NoDup l -> w ∉ remove l w.
Proof.
  induction 1 as [|y l Hy Hl IH]; simpl; [set_solver|].
  destruct (Nat.eqb_spec y w); [by subst|]. set_solver.
Qed.

Lemma elem_of_rev (l : list nat) (x : nat) : x ∈ rev l <-> x ∈ l.
Proof. rewrite !list_elem_of_In. symmetry. apply in_rev. Qed.

(** ** Subscriber lists under the subject operations *)

Lemma subs_of_emit (e : Event) (g : World) (d : nat) : subs_of (emit e g) d = subs_of g d.
Proof. done. Qed.

Lemma subs_of_removeSub (d w d' : nat) (g : World) :
  subs_of (removeSub d w g) d' = if decide (d = d') then remove (subs_of g d) w else subs_of g d'.
Proof.
  unfold removeSub, subs_of; simpl. rewrite lookup_insert.
  destruct (decide (d = d')); by subst.
Qed.

Lemma subs_of_addSub (d w d' : nat) (g : World) :
  subs_of (addSub d w g) d' =
    if decide (d = d') then
      (if bool_decide (w ∈ subs_of g d) then subs_of g d else subs_of g d ++ [w])
    else subs_of g d'.
Proof.
  unfold addSub. destruct (bool_decide (w ∈ subs_of g d)) eqn:E.
  - destruct (decide (d = d')); by subst.
  - unfold subs_of at 1; simpl. rewrite lookup_insert.
    destruct (decide (d = d')); by subst.
Qed.


Lemma calls_emit (e : Event) (g : World) :
  calls (emit e g) = if is_call e then e :: calls g else calls g.
Proof. unfold calls; simpl. by destruct (is_call e). Qed.

Lemma calls_same_log (g g' : World) : log g' = log g -> calls g' = calls g.
Proof. unfold calls. by intros ->. Qed.

Lemma log_addSub (d w : nat) (g : World) : log (addSub d w g) = log g.
Proof. unfold addSub. by destruct (bool_decide _). Qed.

Lemma calls_addDep (d : nat) (st : St) : calls (addDep d st).2 = calls st.2.
Proof.
  destruct st as [this g]. unfold addDep.
  destruct (bool_decide (d ∈ newDepIds this)); simpl; [done|].
  destruct (bool_decide (d ∈ depIds this)); simpl; [done|].
  by rewrite (calls_same_log _ _ (log_addSub _ _ _)).
Qed.

Lemma calls_track (ds : list nat) (st : St) : calls (track ds st).2 = calls st.2.
Proof.
  revert st. induction ds as [|d ds IH]; intros st; simpl; [done|].
  unfold track in *; simpl. by rewrite IH, calls_addDep.
Qed.

Lemma calls_cleanupDeps (st : St) : calls (cleanupDeps st).2 = calls st.2.
Proof.
  destruct st as [this g]. unfold cleanupDeps; simpl.
  generalize (rev (deps this)) as l. intros l. revert g.
  induction l as [|d l IH]; intros g; simpl; [done|].
  rewrite IH. by destruct (bool_decide (d ∈ newDepIds this)).
Qed.


Lemma calls_handleError (err : error) (v : nat) (info : string) (st st' : St) :
  final (handleError err v info st) = Some st' -> calls st'.2 = calls st.2.
Proof.
  destruct st as [this g]. unfold handleError.
  destruct (errorHandler (config g)) as [h|]; simpl.
  - destruct (h err v info); simpl; by same_state.
  - destruct (production (config g)); simpl;
      (destruct (inBrowser (config g) && hasConsole (config g)); simpl;
       by same_state).
Qed.

Lemma calls_popTarget (g : World) : calls (popTarget g) = calls g.
Proof. done. Qed.

Lemma calls_set_seenObjects (x : gset nat) (g : World) : calls (set_seenObjects x g) = calls g.
Proof. done. Qed.

(** One evaluation calls the read function once and no callback. *)
Lemma calls_get (fuel : nat) (st st' : St) :
  final (get fuel st) = Some st' -> calls st'.2 = EvGetter (id st.1) :: calls st.2.
Proof.
  destruct st as [this g]. unfold get.
  set (r := getter this _ _).
  set (st1 := track (touched r) _).
  assert (H1 : calls st1.2 = EvGetter (id this) :: calls g).
  { unfold st1. by rewrite calls_track. }
  assert (Hend : forall (v : JSValue) (s : St),
            calls s.2 = EvGetter (id this) :: calls g ->
            final (do (_, st) <-
                     (if deep this then
                        match traverse fuel (heap s.2) v with
                        | Some w => Return tt (track (reads w) (s.1, set_seenObjects (seen w) s.2))
                        | None => Diverge
                        end
                      else Return tt s);
                   Return v (cleanupDeps (st.1, popTarget st.2))) = Some st' ->
            calls st'.2 = EvGetter (id this) :: calls g).
  { intros v s Hs. destruct (deep this); cbn [bind final].
    - destruct (traverse fuel (heap s.2) v); cbn [bind final]; [|done].
      same_state. rewrite calls_cleanupDeps; cbn [fst snd].
      by rewrite calls_popTarget, calls_track.
    - same_state. rewrite calls_cleanupDeps; cbn [fst snd]. by rewrite calls_popTarget. }
  destruct (outcome r) as [v|e]; simpl.
  - by apply Hend.
  - destruct (user this); simpl; [|by same_state].
    destruct (handleError e (vm this) _ st1) as [[] s|e' s|] eqn:Eh; simpl; [| |done].
    + apply Hend. rewrite <- H1. eapply calls_handleError. by rewrite Eh.
    + same_state. rewrite <- H1. eapply calls_handleError. by rewrite Eh.
Qed.

(** ** What an evaluation leaves alone *)


Lemma frame_refl (st : St) : frame st st.
Proof. destruct st as [[] g]. by repeat split. Qed.

Lemma frame_trans (a b c : St) : frame a b -> frame b c -> frame a c.
Proof.
  destruct a as [ta ga], b as [tb gb], c as [tc gc].
  unfold frame, same_but_tracking, same_outside; simpl.
  intros [Hab (?&?&?&?&?)] [Hbc (?&?&?&?&?)]. split.
  - rewrite Hbc at 1. by rewrite Hab.
  - repeat split; congruence.
Qed.

Lemma frame_fields (st st' : St) :
  frame st st' ->
  vm st'.1 = vm st.1 /\ id st'.1 = id st.1 /\ value st'.1 = value st.1 /\
  dirty st'.1 = dirty st.1 /\ active st'.1 = active st.1 /\
  deep st'.1 = deep st.1 /\ user st'.1 = user st.1 /\
  lazy st'.1 = lazy st.1 /\ sync st'.1 = sync st.1 /\
  expression st'.1 = expression st.1.
Proof. intros [H _]. rewrite H. by repeat split. Qed.

Lemma frame_addSub (d w : nat) (t : Watcher) (g : World) : frame (t, g) (t, addSub d w g).
Proof.
  unfold addSub. destruct (bool_decide _); [apply frame_refl|].
  destruct t; by repeat split.
Qed.

Lemma frame_addDep (d : nat) (st : St) : frame st (addDep d st).
Proof.
  destruct st as [this g]. unfold addDep.
  destruct (bool_decide (d ∈ newDepIds this)); simpl; [apply frame_refl|].
  destruct (bool_decide (d ∈ depIds this)); simpl.
  - by repeat split.
  - eapply frame_trans; [|apply frame_addSub]. by repeat split.
Qed.

Lemma frame_track (ds : list nat) (st : St) : frame st (track ds st).
Proof.
  revert st. induction ds as [|d ds IH]; intros st; [apply frame_refl|].
  eapply frame_trans; [apply (frame_addDep d)|apply IH].
Qed.

Lemma frame_cleanupDeps (st : St) : frame st (cleanupDeps st).
Proof.
  destruct st as [this g]. unfold cleanupDeps. split; [done|]. simpl.
  generalize (rev (deps this)) as l. intros l.
  assert (H : forall g0, same_outside g g0 ->
            same_outside g (foldl (fun g1 dep =>
               if negb (bool_decide (dep ∈ newDepIds this))
               then removeSub dep (id this) (emit (EvRemoveSub dep (id this)) g1)
               else g1) g0 l)).
  { induction l as [|d l IH]; intros g0 H0; simpl; [done|].
    apply IH. by destruct (bool_decide (d ∈ newDepIds this)). }
  apply H. by repeat split.
Qed.

Lemma frame_handleError (err : error) (v : nat) (info : string) (st st' : St) :
  final (handleError err v info st) = Some st' -> frame st st'.
Proof.
  destruct st as [this g]. unfold handleError.
  destruct (errorHandler (config g)) as [h|]; simpl.
  - destruct (h err v info); simpl; same_state; destruct this; by repeat split.
  - destruct (production (config g)); simpl;
      (destruct (inBrowser (config g) && hasConsole (config g)); simpl;
       same_state; destruct this; by repeat split).
Qed.

(** An evaluation changes the tracking fields of the watcher and, of the
    world, the subscriber lists, the seen set and the log; nothing else. *)
Lemma frame_get (fuel : nat) (st st' : St) :
  final (get fuel st) = Some st' -> frame st st'.
Proof.
  destruct st as [this g]. unfold get.
  set (r := getter this _ _).
  set (st1 := track (touched r) _).
  assert (H1 : frame (this, g) st1).
  { eapply frame_trans; [|apply frame_track]. destruct this; by repeat split. }
  assert (Hend : forall (v : JSValue) (s : St),
            frame (this, g) s ->
            final (do (_, st) <-
                     (if deep this then
                        match traverse fuel (heap s.2) v with
                        | Some w => Return tt (track (reads w) (s.1, set_seenObjects (seen w) s.2))
                        | None => Diverge
                        end
                      else Return tt s);
                   Return v (cleanupDeps (st.1, popTarget st.2))) = Some st' ->
            frame (this, g) st').
  { intros v s Hs.
    assert (Hpop : forall s0 : St, frame s0 (s0.1, popTarget s0.2)).
    { intros [[] ?]. by repeat split. }
    destruct (deep this); cbn [bind final].
    - destruct (traverse fuel (heap s.2) v); cbn [bind final]; [|done].
      same_state. eapply frame_trans; [|apply frame_cleanupDeps].
      eapply frame_trans; [|apply Hpop].
      eapply frame_trans; [|apply frame_track].
      eapply frame_trans; [apply Hs|]. destruct s as [[] ?]; by repeat split.
    - same_state. eapply frame_trans; [|apply frame_cleanupDeps].
      eapply frame_trans; [apply Hs|apply Hpop]. }
  destruct (outcome r) as [v|e]; simpl.
  - by apply Hend.
  - destruct (user this); simpl; [|by same_state].
    destruct (handleError e (vm this) _ st1) as [[] s|e' s|] eqn:Eh; simpl; [| |done].
    + apply Hend. eapply frame_trans; [apply H1|].
      eapply frame_handleError. by rewrite Eh.
    + same_state. eapply frame_trans; [apply H1|].
      eapply frame_handleError. by rewrite Eh.
Qed.

Lemma handleError_ends (err : error) (v : nat) (info : string) (st : St) :
  exists st', final (handleError err v info st) = Some st'.
Proof.
  destruct st as [this g]. unfold handleError.
  destruct (errorHandler (config g)) as [h|]; simpl;
    [destruct (h err v info); by eexists|].
  destruct (production (config g)); simpl;
    (destruct (inBrowser (config g) && hasConsole (config g)); by eexists).
Qed.

Arguments handleError : simpl never.
Arguments get : simpl never.
Arguments cleanupDeps : simpl never.
Arguments track : simpl never.
Arguments addDep : simpl never.

(** ** The error-routing policy *)

(** C9, as the code has it. Routing policy of [handleError]: with a
    configured handler, the handler is called with the error, the scope and
    the label, and nothing else is reported; the call is not wrapped, so
    [handleError] returns when the handler returns and throws what the
    handler throws. Without a handler, the error goes to [console.error]
    and the call returns when the context is interactive (in a browser, with
    a console), and the same error is thrown otherwise; before either, a
    warning is given outside production. *)
Theorem handleError_policy (err : error) (v : nat) (info : string) (this : Watcher) (g : World) :
  (forall handler, errorHandler (config g) = Some handler ->
     handleError err v info (this, g) =
       match handler err v info with
       | None => Return tt (this, set_log (EvErrorHandler err v info :: log g) g)
       | Some e => Throw e (this, set_log (EvErrorHandler err v info :: log g) g)
       end)
  /\ (errorHandler (config g) = None -> interactive (config g) = true ->
        handleError err v info (this, g)
        = Return tt (this, set_log (EvConsoleError err
                                      :: error_warning (config g) err v info ++ log g) g))
  /\ (errorHandler (config g) = None -> interactive (config g) = false ->
        handleError err v info (this, g)
        = Throw err (this, set_log (error_warning (config g) err v info ++ log g) g)).
Proof.
  unfold handleError, interactive, error_warning. split_and!.
  - by intros h ->.
  - intros -> Hi. destruct (production (config g)); simpl; by rewrite Hi.
  - intros -> Hi. destruct (production (config g)); simpl; rewrite Hi; [by destruct g|done].
Qed.

Lemma handleError_policy_witness :
  handleError "boom" 1 "getter" (plain_watcher, world0 node_config)
  = Throw "boom"
      (plain_watcher,
       set_log (error_warning node_config "boom" 1 "getter" ++ log (world0 node_config))
               (world0 node_config)).
Proof.
  destruct (handleError_policy "boom" 1 "getter" plain_watcher (world0 node_config))
    as (_ & _ & H).
  exact (H eq_refl eq_refl).
Defined.

(** C9, as the spec words it, fails for a handler that throws: the handler
    is configured and is called, and its exception leaves [handleError]. *)
Lemma throwing_handler_escapes :
  errorHandler (config (world0 strict_config)) = Some rethrowing_handler
  /\ handleError "boom" 1 "getter" (plain_watcher, world0 strict_config)
     = Throw "boom" (plain_watcher,
                     set_log [EvErrorHandler "boom" 1 "getter"] (world0 strict_config))
  /\ ~ (exists st, handleError "boom" 1 "getter" (plain_watcher, world0 strict_config)
                   = Return tt st).
Proof. split_and!; [reflexivity|reflexivity|]. intros [st Hst]. discriminate Hst. Qed.

(** ** Invalidation: [update], [run], [evaluate] *)

Lemma run_inactive (fuel : nat) (st : St) : active st.1 = false -> run fuel st = Return tt st.
Proof. unfold run. by intros ->. Qed.

(** C4, as the code has it. Inactivity is checked where [run] is entered
    and nowhere else: on a torn-down watcher [run] does nothing at all (no
    evaluation, no callback); [update] does not look at the flag, so a lazy
    watcher is still marked dirty, a sync one goes through [run] and is
    skipped there, and any other is still put on the queue (to be skipped
    when its [run] is entered). None of the three evaluates or calls back. *)
Theorem inactive_run_update (fuel : nat) (this : Watcher) (g : World) :
  active this = false ->
  run fuel (this, g) = Return tt (this, g)
  /\ update fuel (this, g) =
       (if lazy this then Return tt (set_dirty true this, g)
        else if sync this then Return tt (this, g)
        else Return tt (this, queueWatcher (id this) g))
  /\ (forall st', final (update fuel (this, g)) = Some st' -> calls st'.2 = calls g).
Proof.
  intros Ha. split; [by apply run_inactive|].
  assert (Hu : update fuel (this, g) =
       (if lazy this then Return tt (set_dirty true this, g)
        else if sync this then Return tt (this, g)
        else Return tt (this, queueWatcher (id this) g))).
  { unfold update; simpl. destruct (lazy this); [done|].
    destruct (sync this); [by apply run_inactive|done]. }
  split; [done|]. rewrite Hu. intros st'.
  destruct (lazy this); [by same_state|].
  destruct (sync this); [by same_state|]. same_state.
  unfold queueWatcher; simpl. by destruct (bool_decide _).
Qed.

Lemma inactive_run_update_witness :
  run 0 lazy_torn = Return tt lazy_torn.
Proof.
  assert (Ha : active lazy_torn.1 = false) by (vm_compute; reflexivity).
  rewrite (surjective_pairing lazy_torn).
  exact (proj1 (inactive_run_update 0 lazy_torn.1 lazy_torn.2 Ha)).
Defined.

(** C4, as the spec words it, fails for [update]: a torn-down lazy watcher
    is marked dirty again, and a torn-down batched watcher is queued. *)
Lemma update_ignores_inactive :
  (active lazy_torn.1 = false /\ dirty lazy_torn.1 = false
   /\ exists st', update 0 lazy_torn = Return tt st' /\ dirty st'.1 = true)
  /\ (active async_torn.1 = false /\ queue (sched async_torn.2) = []
      /\ exists st', update 0 async_torn = Return tt st'
                     /\ queue (sched st'.2) = [id async_torn.1]).
Proof.
  split; (split; [reflexivity|split; [reflexivity|]]);
    eexists; (split; [reflexivity|]); vm_compute; reflexivity.
Qed.

(** C3. Invalidation dispatch and lazy memoization. [update] on a lazy
    watcher only sets the dirty flag: the world, the stored value and the
    tracking state stay as they are, so neither the read function nor the
    callback is called. On a sync watcher it is [run]. On any other watcher
    it is [queueWatcher], which calls nothing and, for a watcher not yet
    queued while no flush runs, appends it to the queue. [evaluate] calls
    [get] (one call of the read function), stores what it returns and
    clears the dirty flag. *)
Theorem update_dispatch (fuel : nat) (this : Watcher) (g : World) :
  (lazy this = true ->
     update fuel (this, g) = Return tt (set_dirty true this, g)
     /\ dirty (set_dirty true this) = true
     /\ value (set_dirty true this) = value this)
  /\ (lazy this = false -> sync this = true -> update fuel (this, g) = run fuel (this, g))
  /\ (lazy this = false -> sync this = false ->
        update fuel (this, g) = Return tt (this, queueWatcher (id this) g)
        /\ calls (queueWatcher (id this) g) = calls g
        /\ (id this ∉ has (sched g) -> flushing (sched g) = false ->
              queue (sched (queueWatcher (id this) g)) = queue (sched g) ++ [id this]))
  /\ (forall v st1, get fuel (this, g) = Return v st1 ->
        exists this', evaluate fuel (this, g) = Return tt (this', st1.2)
                      /\ value this' = v /\ dirty this' = false
                      /\ calls st1.2 = EvGetter (id this) :: calls g).
Proof.
  unfold update; simpl. split; [|split; [|split]].
  - by intros ->.
  - by intros -> ->.
  - intros -> ->. split; [done|]. unfold queueWatcher. split.
    + by destruct (bool_decide _).
    + intros Hq Hf. rewrite bool_decide_eq_false_2 by done.
      simpl. by rewrite Hf.
  - intros v st1 Hget. unfold evaluate. rewrite Hget; simpl.
    eexists. split; [done|]. split; [done|]. split; [done|].
    apply (calls_get fuel (this, g)). by rewrite Hget.
Qed.

Lemma calls_snd_pair (t : Watcher) (g : World) : calls (t, g).2 = calls g.
Proof. reflexivity. Qed.

Lemma update_dispatch_witness :
  exists st', update 0 lazy_torn = Return tt st' /\ calls st'.2 = calls lazy_torn.2.
Proof.
  assert (Hl : lazy lazy_torn.1 = true) by (vm_compute; reflexivity).
  destruct (update_dispatch 0 lazy_torn.1 lazy_torn.2) as (H & _).
  destruct (H Hl) as (Hu & _).
  exists (set_dirty true lazy_torn.1, lazy_torn.2). split; [|apply calls_snd_pair].
  rewrite (surjective_pairing lazy_torn) at 1. exact Hu.
Defined.

(** C2, as the code has it. When [run] on an active watcher re-evaluates
    to [v]: if [v !== this.value], or [v] is an object or array, or the
    watcher is deep, the value is stored and the callback is called once,
    with [v] and the value stored before; otherwise nothing is stored and
    no callback is called. A scalar that strictly equals the stored one on
    a watcher that is not deep does not fire. [NaN] is not strictly equal to
    itself, so a watcher going from [NaN] to [NaN] does fire. *)
Theorem run_fires_iff (fuel : nat) (this : Watcher) (g : World) (v : JSValue) (st1 : St) :
  active this = true ->
  get fuel (this, g) = Return v st1 ->
  (fires this v = true ->
     exists st2, final (run fuel (this, g)) = Some st2
                 /\ value st2.1 = v
                 /\ calls st2.2 = EvCallback (id this) v (value this)
                                    :: EvGetter (id this) :: calls g)
  /\ (fires this v = false ->
        run fuel (this, g) = Return tt st1
        /\ value st1.1 = value this
        /\ calls st1.2 = EvGetter (id this) :: calls g)
  /\ (isObject v = false -> deep this = false ->
        (fires this v = false <-> strict_eq v (value this) = true))
  /\ (v = VNum PrimFloat.nan -> value this = VNum PrimFloat.nan -> fires this v = true).
Proof.
  intros Ha Hget.
  assert (Hfr : frame (this, g) st1) by (apply (frame_get fuel); by rewrite Hget).
  assert (Hc : calls st1.2 = EvGetter (id this) :: calls g)
    by (apply (calls_get fuel (this, g)); by rewrite Hget).
  destruct (frame_fields _ _ Hfr) as (Hvm & Hid & Hval & _ & _ & Hdeep & Huser & _).
  simpl in Hvm, Hid, Hval, Hdeep, Huser.
  unfold run; simpl. rewrite Ha, Hget; cbn [bind].
  rewrite Hval, Hdeep. fold (fires this v).
  split; [|split; [|split]].
  - intros ->. simpl.
    destruct (cb st1.1 _ _ v (value this)) as [e|] eqn:Ecb; simpl.
    + rewrite Huser. destruct (user this); simpl.
      * match goal with |- context [handleError ?a ?b ?c ?d] =>
          destruct (handleError_ends a b c d) as [s Hs] end.
        exists s. split; [done|].
        pose proof (frame_handleError _ _ _ _ s Hs) as Hf.
        pose proof (calls_handleError _ _ _ _ s Hs) as Hcs.
        destruct (frame_fields _ _ Hf) as (_ & _ & Hv' & _). simpl in *.
        split; [done|]. rewrite Hcs, calls_emit. simpl. by rewrite Hc, Hid.
      * eexists. split; [done|]. split; [done|]. simpl.
        rewrite calls_emit. simpl. by rewrite Hc, Hid.
    + eexists. split; [done|]. split; [done|]. simpl.
      rewrite calls_emit. simpl. by rewrite Hc, Hid.
  - by intros ->.
  - unfold fires. intros -> ->. rewrite !orb_false_r. by destruct (strict_eq _ _).
  - intros -> Hv. unfold fires. by rewrite Hv.
Qed.

Lemma run_fires_iff_witness :
  exists st2, final (run 0 nan_watcher) = Some st2
              /\ value st2.1 = VNum PrimFloat.nan
              /\ calls st2.2 = EvCallback 1 (VNum PrimFloat.nan) (VNum PrimFloat.nan)
                                 :: EvGetter 1 :: calls nan_watcher.2.
Proof.
  assert (Hget : get 0 (nan_watcher.1, nan_watcher.2)
                 = Return (VNum PrimFloat.nan) (state_of nan_watcher (get 0 nan_watcher)))
    by (vm_compute; reflexivity).
  destruct (run_fires_iff 0 nan_watcher.1 nan_watcher.2 _ _ eq_refl Hget) as (H & _).
  exact (H eq_refl).
Defined.

(** C2, as the spec words it, fails at [NaN]: the stored value is [NaN],
    the re-evaluation gives [NaN] again, the watcher is not deep, and the
    callback is called with ([NaN], [NaN]). *)
Lemma nan_to_nan_fires :
  value nan_watcher.1 = VNum PrimFloat.nan
  /\ deep nan_watcher.1 = false
  /\ active nan_watcher.1 = true
  /\ exists st1 st2,
       get 0 nan_watcher = Return (VNum PrimFloat.nan) st1
       /\ run 0 nan_watcher = Return tt st2
       /\ calls st2.2 = [EvCallback 1 (VNum PrimFloat.nan) (VNum PrimFloat.nan);
                         EvGetter 1; EvGetter 1].
Proof.
  split; [reflexivity|]. split; [reflexivity|]. split; [reflexivity|].
  eexists _, _. split; [vm_compute; reflexivity|].
  split; [vm_compute; reflexivity|]. vm_compute; reflexivity.
Qed.

(** ** Unsubscription loops *)

Section Unsubscribe.

Variable p : nat -> bool.
Variable w : nat.

Lemma unsubscribe_cons (d : nat) (l : list nat) (g : World) :
  unsubscribe p w (d :: l) g =
    unsubscribe p w l (if p d then removeSub d w (emit (EvRemoveSub d w) g) else g).
Proof. done. Qed.

Lemma unsubscribe_outside (l : list nat) (g : World) :
  same_outside g (unsubscribe p w l g) /\ targetStack (unsubscribe p w l g) = targetStack g.
Proof.
  revert g. induction l as [|d l IH]; intros g; [by repeat split|].
  rewrite unsubscribe_cons. destruct (IH (if p d then removeSub d w (emit (EvRemoveSub d w) g) else g))
    as [(?&?&?&?&?) ?].
  unfold same_outside. destruct (p d); simpl in *; repeat split; congruence.
Qed.

Lemma unsubscribe_others (l : list nat) (g : World) (d x : nat) :
  x ≠ w -> x ∈ subs_of (unsubscribe p w l g) d <-> x ∈ subs_of g d.
Proof.
  intros Hx. revert g. induction l as [|d0 l IH]; intros g; [done|].
  rewrite unsubscribe_cons, IH. destruct (p d0); [|done].
  rewrite subs_of_removeSub, subs_of_emit. destruct (decide (d0 = d)) as [->|]; [|done].
  split; [apply remove_incl|by apply remove_other].
Qed.

Lemma unsubscribe_NoDup (l : list nat) (g : World) (d : nat) :
  NoDup (subs_of g d) -> NoDup (subs_of (unsubscribe p w l g) d).
Proof.
  revert g. induction l as [|d0 l IH]; intros g Hnd; [done|].
  rewrite unsubscribe_cons. apply IH. destruct (p d0); [|done].
  rewrite subs_of_removeSub, subs_of_emit. destruct (decide (d0 = d)) as [->|]; [|done].
  by apply remove_NoDup.
Qed.

Lemma unsubscribe_absent (l : list nat) (g : World) (d : nat) :
  w ∉ subs_of g d -> w ∉ subs_of (unsubscribe p w l g) d.
Proof.
  revert g. induction l as [|d0 l IH]; intros g Hn; [done|].
  rewrite unsubscribe_cons. apply IH. destruct (p d0); [|done].
  rewrite subs_of_removeSub, subs_of_emit. destruct (decide (d0 = d)) as [->|]; [|done].
  intros Hin. apply Hn. by eapply remove_incl.
Qed.

Lemma unsubscribe_gone (l : list nat) (g : World) (d : nat) :
  NoDup (subs_of g d) -> d ∈ l -> p d = true -> w ∉ subs_of (unsubscribe p w l g) d.
Proof.
  intros Hnd Hin Hp. revert g Hnd. induction l as [|d0 l IH]; intros g Hnd.
  - by apply elem_of_nil in Hin.
  - rewrite unsubscribe_cons. destruct (decide (d0 = d)) as [->|Hne].
    + rewrite Hp. apply unsubscribe_absent.
      rewrite subs_of_removeSub, subs_of_emit, decide_True by done. by apply remove_gone.
    + apply elem_of_cons in Hin as [?|Hin]; [congruence|].
      apply IH; [done|]. destruct (p d0); [|done].
      by rewrite subs_of_removeSub, subs_of_emit, decide_False.
Qed.

Lemma unsubscribe_keep (l : list nat) (g : World) (d : nat) :
  (d ∉ l \/ p d = false) -> subs_of (unsubscribe p w l g) d = subs_of g d.
Proof.
  intros Hd. revert g. induction l as [|d0 l IH]; intros g; [done|].
  rewrite unsubscribe_cons, IH.
  - destruct (p d0) eqn:Hp; [|done].
    rewrite subs_of_removeSub, subs_of_emit. destruct (decide (d0 = d)) as [->|]; [|done].
    destruct Hd as [Hd|Hd]; [|congruence]. exfalso. apply Hd. by left.
  - destruct Hd as [Hd|Hd]; [left|by right]. intros Hin. apply Hd. by right.
Qed.

End Unsubscribe.

Lemma cleanupDeps_unfold (this : Watcher) (g : World) :
  cleanupDeps (this, g) =
    (set_tracking (newDeps this) [] (newDepIds this) ∅ this,
     unsubscribe (fun dep => negb (bool_decide (dep ∈ newDepIds this))) (id this)
                 (rev (deps this)) g).
Proof. done. Qed.

Lemma teardown_unfold (this : Watcher) (g : World) :
  active this = true ->
  teardown (this, g) =
    (set_active false this,
     unsubscribe (fun _ => true) (id this) (rev (deps this))
       (if negb (_isBeingDestroyed (component g (vm this)))
        then set_vms (<[vm this := mkComponent (remove (_watchers (component g (vm this))) (id this))
                                      (_isBeingDestroyed (component g (vm this)))]> (vms g)) g
        else g)).
Proof. unfold teardown. by intros ->. Qed.

(** ** Teardown *)

Lemma component_set_vms (g : World) (v : nat) (c : Component) :
  component (set_vms (<[v := c]> (vms g)) g) v = c.
Proof. unfold component; simpl. by rewrite lookup_insert_eq. Qed.

(** X3. Teardown semantics and idempotence. On an active watcher
    [teardown] marks it inactive, leaves the subscriber list of every
    subject in its current dependency list without it (subscriber lists
    hold a subscriber at most once) and without touching any other
    subscriber, and takes it off the owning scope's watcher list unless the
    scope is being destroyed, in which case the scopes are left alone. On an
    inactive watcher it changes nothing, so a second call is a no-op. *)
Theorem teardown_semantics (this : Watcher) (g : World) :
  (active this = true ->
     active (teardown (this, g)).1 = false
     /\ (forall d, d ∈ deps this -> NoDup (subs_of g d) ->
           id this ∉ subs_of (teardown (this, g)).2 d)
     /\ (forall d x, x ≠ id this ->
           x ∈ subs_of (teardown (this, g)).2 d <-> x ∈ subs_of g d)
     /\ (_isBeingDestroyed (component g (vm this)) = false ->
           _watchers (component (teardown (this, g)).2 (vm this))
             = remove (_watchers (component g (vm this))) (id this)
           /\ (NoDup (_watchers (component g (vm this))) ->
                 id this ∉ _watchers (component (teardown (this, g)).2 (vm this))))
     /\ (_isBeingDestroyed (component g (vm this)) = true ->
           vms (teardown (this, g)).2 = vms g))
  /\ (active this = false -> teardown (this, g) = (this, g))
  /\ teardown (teardown (this, g)) = teardown (this, g).
Proof.
  split; [|split].
  - intros Ha. rewrite (teardown_unfold _ _ Ha). cbn [fst snd].
    set (g1 := if negb _ then _ else g).
    assert (Hs : forall d, subs_of g1 d = subs_of g d).
    { intros d. unfold g1. by destruct (negb _). }
    split; [done|]. split; [|split; [|split]].
    + intros d Hd Hnd. apply unsubscribe_gone; [by rewrite Hs| |done].
      by apply elem_of_rev.
    + intros d x Hx. by rewrite unsubscribe_others, Hs.
    + intros Hb.
      destruct (unsubscribe_outside (fun _ => true) (id this) (rev (deps this)) g1)
        as [(_ & Hv & _) _].
      assert (Hw : _watchers (component (unsubscribe (fun _ => true) (id this)
                                           (rev (deps this)) g1) (vm this))
                   = remove (_watchers (component g (vm this))) (id this)).
      { unfold component at 1. rewrite Hv. unfold g1. rewrite Hb; simpl.
        by rewrite lookup_insert_eq. }
      split; [done|]. rewrite Hw. apply remove_gone.
    + intros Hb.
      destruct (unsubscribe_outside (fun _ => true) (id this) (rev (deps this)) g1)
        as [(_ & Hv & _) _].
      rewrite Hv. unfold g1. by rewrite Hb.
  - unfold teardown. by intros ->.
  - destruct (active this) eqn:Ha.
    + rewrite (teardown_unfold _ _ Ha). by unfold teardown at 1.
    + unfold teardown. by rewrite Ha; simpl; rewrite Ha.
Qed.

Lemma teardown_semantics_witness :
  active (teardown (live_watcher.1, live_watcher.2)).1 = false
  /\ (id live_watcher.1 ∉ subs_of (teardown (live_watcher.1, live_watcher.2)).2 2).
Proof.
  assert (Ha : active live_watcher.1 = true) by (vm_compute; reflexivity).
  assert (Hd : 2 ∈ deps live_watcher.1)
    by (apply (bool_decide_unpack _); vm_compute; exact I).
  assert (Hn : NoDup (subs_of live_watcher.2 2))
    by (apply (bool_decide_unpack _); vm_compute; exact I).
  destruct (teardown_semantics live_watcher.1 live_watcher.2) as (H & _).
  destruct (H Ha) as (Hact & Hs & _).
  split; [exact Hact|]. exact (Hs 2 Hd Hn).
Defined.

(** ** Dependency collection *)

Lemma track_snoc (ds : list nat) (d : nat) (st : St) :
  track (ds ++ [d]) st = addDep d (track ds st).
Proof. unfold track. by rewrite foldl_snoc. Qed.

Lemma track_app (ds es : list nat) (st : St) :
  track (ds ++ es) st = track es (track ds st).
Proof. unfold track. by rewrite foldl_app. Qed.

Lemma collecting_start (t : Watcher) (g g0 : World) :
  newDeps t = [] -> newDepIds t = ∅ -> unique_subscribers g -> subs g0 = subs g ->
  collecting t g [] (t, g0).
Proof.
  intros Hn Hi Hu Hs. unfold collecting, unique_subscribers, subs_of in *; simpl.
  rewrite Hn, Hi, Hs. split_and!; try done; [constructor|set_solver].
Qed.

Lemma collecting_world (t : Watcher) (g : World) (rs : list nat) (t1 : Watcher) (g1 g1' : World) :
  subs g1' = subs g1 -> collecting t g rs (t1, g1) -> collecting t g rs (t1, g1').
Proof.
  intros Hs. unfold collecting, unique_subscribers, subs_of; simpl. by rewrite Hs.
Qed.

Lemma collecting_addDep (t : Watcher) (g : World) (rs : list nat) (d : nat) (st : St) :
  collecting t g rs st -> collecting t g (rs ++ [d]) (addDep d st).
Proof.
  destruct st as [t1 g1]. intros (Hd & Hi & Hid & Hni & Hnd & Hn & Hu & Ho & Hw).
  simpl in *. unfold addDep. rewrite Hni, Hi, Hid.
  destruct (bool_decide_reflect (d ∈ (list_to_set rs : gset nat))) as [Hin|Hin]; simpl.
  - apply elem_of_list_to_set in Hin.
    unfold collecting; simpl. split_and!; try done.
    + rewrite Hni. set_solver.
    + intros d0. rewrite Hn. set_solver.
    + intros d0. rewrite Hw. set_solver.
  - rewrite elem_of_list_to_set in Hin.
    assert (Hset : ({[d]} ∪ list_to_set rs : gset nat) = list_to_set (rs ++ [d])) by set_solver.
    assert (Hnd' : NoDup (newDeps t1 ++ [d])).
    { apply NoDup_app. split; [done|]. split; [|apply NoDup_singleton].
      intros x Hx ->%list_elem_of_singleton. apply Hin. by apply Hn. }
    assert (Hn' : forall d0, d0 ∈ newDeps t1 ++ [d] <-> d0 ∈ rs ++ [d]).
    { intros d0. rewrite !elem_of_app, Hn. done. }
    destruct (bool_decide_reflect (d ∈ depIds t)) as [Hdi|Hdi]; simpl.
    + unfold collecting; simpl. split_and!; try done.
      intros d0. rewrite Hw. set_solver.
    + unfold collecting; simpl. split_and!; try done.
      * intros d0. rewrite subs_of_addSub, !subs_of_emit.
        destruct (decide (d = d0)) as [<-|]; [|apply Hu].
        destruct (bool_decide_reflect (id t ∈ subs_of g1 d)); [apply Hu|].
        apply NoDup_app. split; [apply Hu|]. split; [|apply NoDup_singleton].
        by intros x Hx ->%list_elem_of_singleton.
      * intros d0 x Hx. rewrite subs_of_addSub, !subs_of_emit, <- Ho by done.
        destruct (decide (d = d0)) as [<-|]; [|done].
        destruct (bool_decide_reflect (id t ∈ subs_of g1 d)); [done|].
        rewrite elem_of_app, list_elem_of_singleton. naive_solver.
      * intros d0. rewrite subs_of_addSub, !subs_of_emit.
        destruct (decide (d = d0)) as [<-|Hne].
        -- destruct (bool_decide_reflect (id t ∈ subs_of g1 d)) as [Hs|Hs].
           ++ split; [|done]. intros _. right. split; [set_solver|done].
           ++ split; [|set_solver]. intros _. right. split; [set_solver|done].
        -- rewrite Hw. set_solver.
Qed.

Lemma collecting_track (t : Watcher) (g : World) (rs ds : list nat) (st : St) :
  collecting t g rs st -> collecting t g (rs ++ ds) (track ds st).
Proof.
  induction ds as [|d ds IH] using rev_ind; intros H.
  - by rewrite app_nil_r.
  - rewrite track_snoc, app_assoc. by apply collecting_addDep, IH.
Qed.

Lemma collecting_cleanupDeps (t : Watcher) (g : World) (rs : list nat) (st : St) :
  depIds t = list_to_set (deps t) ->
  collecting t g rs st ->
  settled (cleanupDeps (st.1, popTarget st.2)).1
  /\ unique_subscribers (cleanupDeps (st.1, popTarget st.2)).2
  /\ NoDup (deps (cleanupDeps (st.1, popTarget st.2)).1)
  /\ (forall d, d ∈ deps (cleanupDeps (st.1, popTarget st.2)).1 <-> d ∈ rs)
  /\ (forall d x, x ≠ id t ->
        (x ∈ subs_of (cleanupDeps (st.1, popTarget st.2)).2 d <-> x ∈ subs_of g d))
  /\ (forall d, d ∈ rs ->
        (id t ∈ subs_of (cleanupDeps (st.1, popTarget st.2)).2 d
         <-> id t ∈ subs_of g d \/ d ∉ deps t))
  /\ (forall d, d ∉ rs -> d ∈ deps t ->
        id t ∉ subs_of (cleanupDeps (st.1, popTarget st.2)).2 d)
  /\ (forall d, d ∉ rs -> d ∉ deps t ->
        (id t ∈ subs_of (cleanupDeps (st.1, popTarget st.2)).2 d <-> id t ∈ subs_of g d)).
Proof.
  destruct st as [t1 g1]. intros Hdi (Hd & Hi & Hid & Hni & Hnd & Hn & Hu & Ho & Hw).
  cbn [fst snd] in *. rewrite cleanupDeps_unfold. cbn [fst snd]. rewrite Hni, Hid, Hd.
  set (p := fun dep => negb (bool_decide (dep ∈ (list_to_set rs : gset nat)))).
  assert (Hp : forall d, p d = true <-> d ∉ rs).
  { intros d. unfold p. rewrite negb_true_iff, bool_decide_eq_false.
    by rewrite elem_of_list_to_set. }
  assert (Hdep : forall d, d ∈ depIds t <-> d ∈ deps t).
  { intros d. by rewrite Hdi, elem_of_list_to_set. }
  split_and!.
  - unfold settled; simpl. split_and!; [done|done|].
    apply set_eq. intros d. by rewrite !elem_of_list_to_set, Hn.
  - intros d. by apply unsubscribe_NoDup, Hu.
  - done.
  - done.
  - intros d x Hx. rewrite unsubscribe_others by done. by apply Ho.
  - intros d Hr. rewrite unsubscribe_keep.
    + change (subs_of (popTarget g1) d) with (subs_of g1 d). rewrite Hw, Hdep. tauto.
    + right. destruct (p d) eqn:E; [|done]. by apply Hp in E.
  - intros d Hr Hdd. apply unsubscribe_gone.
    + apply Hu.
    + by apply elem_of_rev.
    + by apply Hp.
  - intros d Hr Hdd. rewrite unsubscribe_keep.
    + change (subs_of (popTarget g1) d) with (subs_of g1 d). rewrite Hw. tauto.
    + left. by rewrite elem_of_rev.
Qed.

Lemma handleError_state (err : error) (v : nat) (info : string) (t : Watcher) (g : World) (st' : St) :
  final (handleError err v info (t, g)) = Some st' -> exists l, st' = (t, set_log l g).
Proof.
  unfold handleError. destruct (errorHandler (config g)) as [h|].
  - destruct (h err v info); same_state; by eexists.
  - destruct (production (config g)); simpl;
      (destruct (inBrowser (config g) && hasConsole (config g)); same_state;
       try (by eexists); exists (log g); by destruct g).
Qed.

Lemma targetStack_addDep (d : nat) (st : St) :
  targetStack (addDep d st).2 = targetStack st.2.
Proof.
  destruct st as [t g]. unfold addDep.
  destruct (bool_decide (d ∈ newDepIds t)); [done|].
  destruct (bool_decide (d ∈ depIds t)); [done|].
  cbn [negb fst snd]. unfold addSub. by destruct (bool_decide _).
Qed.

Lemma targetStack_track (ds : list nat) (st : St) :
  targetStack (track ds st).2 = targetStack st.2.
Proof.
  induction ds as [|d ds IH] using rev_ind; [done|].
  by rewrite track_snoc, targetStack_addDep.
Qed.

Lemma Return_inj {A : Type} (a b : A) (s s' : St) : Return a s = Return b s' -> a = b /\ s = s'.
Proof. by intros [= -> ->]. Qed.

(** The shape of an evaluation that returns. *)
Lemma get_Return (fuel : nat) (this : Watcher) (g : World) (v : JSValue) (st' : St) :
  newDeps this = [] -> newDepIds this = ∅ -> unique_subscribers g ->
  get fuel (this, g) = Return v st' ->
  exists st, collecting this g (evaluation_reads fuel this g v) st
             /\ st' = cleanupDeps (st.1, popTarget st.2)
             /\ targetStack st.2 = id this :: targetStack g.
Proof.
  intros Hn Hi Hu. unfold get, evaluation_reads, deep_reads.
  change (heap (pushTarget (id this) g)) with (heap g).
  generalize (getter this (heap g) (vm this)). intros r.
  pose proof (collecting_track this g [] (touched r)
                (this, emit (EvGetter (id this)) (pushTarget (id this) g))
                (collecting_start this g _ Hn Hi Hu eq_refl)) as H1.
  pose proof (targetStack_track (touched r)
                (this, emit (EvGetter (id this)) (pushTarget (id this) g))) as T1.
  pose proof (frame_track (touched r)
                (this, emit (EvGetter (id this)) (pushTarget (id this) g))) as [_ (_&_&T2&_)].
  cbn [app fst snd] in H1, T1, T2.
  change (targetStack (emit (EvGetter (id this)) (pushTarget (id this) g)))
    with (id this :: targetStack g) in T1.
  change (heap (emit (EvGetter (id this)) (pushTarget (id this) g))) with (heap g) in T2.
  revert H1 T1 T2.
  generalize (track (touched r) (this, emit (EvGetter (id this)) (pushTarget (id this) g))).
  intros st1 H1 T1 T2.
  assert (Hend : forall (s : St) (u : JSValue),
            collecting this g (touched r) s ->
            targetStack s.2 = id this :: targetStack g -> heap s.2 = heap g ->
            (do (_, st) <-
               (if deep this then
                  match traverse fuel (heap s.2) u with
                  | Some w => Return tt (track (reads w) (s.1, set_seenObjects (seen w) s.2))
                  | None => Diverge
                  end
                else Return tt s);
             Return u (cleanupDeps (st.1, popTarget st.2))) = Return v st' ->
            exists st,
              collecting this g
                (touched r ++ (if deep this then
                                 match traverse fuel (heap g) v with
                                 | Some w => reads w
                                 | None => []
                                 end
                               else [])) st
              /\ st' = cleanupDeps (st.1, popTarget st.2)
              /\ targetStack st.2 = id this :: targetStack g).
  { intros s u Hs Ht Hh. rewrite Hh. destruct (deep this); cbn [bind].
    - destruct (traverse fuel (heap g) u) as [w|] eqn:Etr; cbn [bind];
        [|intros Hret; discriminate Hret].
      intros [-> <-]%Return_inj. rewrite Etr.
      exists (track (reads w) (s.1, set_seenObjects (seen w) s.2)).
      split; [|split; [reflexivity|]].
      + apply collecting_track. destruct s as [t1 g1].
        exact (collecting_world _ _ _ _ g1 _ eq_refl Hs).
      + by rewrite targetStack_track.
    - intros [-> <-]%Return_inj. exists s. rewrite app_nil_r. by split_and!. }
  destruct (outcome r) as [v0|e]; cbn [bind].
  - intros Hret. exact (Hend st1 v0 H1 T1 T2 Hret).
  - destruct (user this); [|intros Hret; discriminate Hret].
    destruct (handleError e (vm this) _ st1) as [[] s|e' s|] eqn:Eh; cbn [bind];
      [|intros Hret; discriminate Hret|intros Hret; discriminate Hret].
    destruct st1 as [t1 g1].
    destruct (handleError_state _ _ _ _ _ s (f_equal final Eh)) as [l ->].
    intros Hret.
    exact (Hend (t1, set_log l g1) VUndefined
             (collecting_world _ _ _ _ g1 _ eq_refl H1) T1 T2 Hret).
Qed.

Lemma unique_subscribers_world0 (c : Config) : unique_subscribers (world0 c).
Proof. intros d. constructor. Qed.

(** X1. Exact dependency tracking by [get], [addDep] and [cleanupDeps].
    When an evaluation starts from a settled watcher (empty working set, id
    set mirroring the dependency list) in a world whose subscriber lists
    hold nobody twice, and it returns, then: the watcher is settled again
    and the lists still hold nobody twice; its dependency list has no
    duplicates and holds exactly the subjects read during the evaluation,
    however often each was read; other watchers' subscriptions are
    untouched; a subject read now that was not a dependency before has the
    watcher subscribed; a dependency that was not read again has it
    unsubscribed; a watcher that was subscribed to exactly its dependencies
    still is; and the target stack is as it was before the call. *)
Theorem get_tracks_reads (fuel : nat) (this : Watcher) (g : World) (v : JSValue) (st' : St) :
  settled this -> unique_subscribers g ->
  get fuel (this, g) = Return v st' ->
  settled st'.1 /\ unique_subscribers st'.2
  /\ NoDup (deps st'.1)
  /\ (forall d, d ∈ deps st'.1 <-> d ∈ evaluation_reads fuel this g v)
  /\ (forall d x, x ≠ id this -> (x ∈ subs_of st'.2 d <-> x ∈ subs_of g d))
  /\ (forall d, d ∈ evaluation_reads fuel this g v -> d ∉ deps this ->
        id this ∈ subs_of st'.2 d)
  /\ (forall d, d ∉ evaluation_reads fuel this g v -> d ∈ deps this ->
        id this ∉ subs_of st'.2 d)
  /\ (subscribed (this, g) -> subscribed st')
  /\ targetStack st'.2 = targetStack g.
Proof.
  intros (Hn & Hi & Hdi) Hu Hget.
  destruct (get_Return fuel this g v st' Hn Hi Hu Hget) as (st & Hc & -> & Ht).
  destruct (collecting_cleanupDeps this g _ st Hdi Hc)
    as (Hs & Hu' & Hnd & Hd & Ho & Hr & Hgone & Hkeep).
  assert (Hid : id (cleanupDeps (st.1, popTarget st.2)).1 = id this).
  { rewrite cleanupDeps_unfold. destruct Hc as (_ & _ & Hid & _). exact Hid. }
  split_and!; try done.
  - intros d Hin Hnew. apply Hr; [done|]. by right.
  - intros Hsub d. rewrite Hid, Hd. cbn [fst snd] in Hsub.
    destruct (decide (d ∈ evaluation_reads fuel this g v)) as [Hin|Hin].
    + rewrite (Hr d Hin), (Hsub d). split; [done|]. intros _.
      destruct (decide (d ∈ deps this)); [by left|by right].
    + split; [|done]. intros Hw. destruct (decide (d ∈ deps this)) as [Hdd|Hdd].
      * by destruct (Hgone d Hin Hdd).
      * apply (Hkeep d Hin Hdd) in Hw. by apply Hsub in Hw.
  - rewrite cleanupDeps_unfold. cbn [fst snd].
    destruct (unsubscribe_outside
                (fun dep => negb (bool_decide (dep ∈ newDepIds st.1))) (id st.1)
                (rev (deps st.1)) (popTarget st.2)) as [_ Hts].
    rewrite Hts. unfold popTarget; simpl. by rewrite Ht.
Qed.

Lemma get_tracks_reads_witness :
  2 ∈ deps (state_of (reader, world0 dev_config) (get 0 (reader, world0 dev_config))).1
  <-> 2 ∈ [1; 2; 1].
Proof.
  assert (Hs : settled reader) by (split_and!; reflexivity).
  assert (Hget : get 0 (reader, world0 dev_config)
                 = Return (VNum 1)
                     (state_of (reader, world0 dev_config) (get 0 (reader, world0 dev_config))))
    by (vm_compute; reflexivity).
  exact (proj1 (proj2 (proj2 (proj2
           (get_tracks_reads 0 reader (world0 dev_config) _ _ Hs
              (unique_subscribers_world0 dev_config) Hget)))) 2).
Defined.

Lemma addDep_known (d : nat) (t : Watcher) (g : World) :
  d ∈ newDepIds t -> addDep d (t, g) = (t, g).
Proof. intros Hin. unfold addDep. by rewrite bool_decide_eq_true_2. Qed.

(** X2. Idempotent recording. Handing the same subject to [addDep] twice
    in a row is the same as handing it once: the second call finds the id
    in [newDepIds] and neither records nor subscribes again. *)
Theorem addDep_twice (d : nat) (st : St) : addDep d (addDep d st) = addDep d st.
Proof.
  destruct st as [t g].
  destruct (decide (d ∈ newDepIds t)) as [Hin|Hin].
  - by rewrite !addDep_known.
  - unfold addDep at 2 3. rewrite bool_decide_eq_false_2 by done. cbn [negb].
    destruct (bool_decide (d ∈ depIds t)); cbn [negb];
      apply addDep_known; cbn [newDepIds set_tracking]; set_solver.
Qed.

(** ** Evaluations that meet an exception *)

Lemma get_unfold (fuel : nat) (this : Watcher) (g : World) :
  get fuel (this, g) =
    match outcome (getter this (heap g) (vm this)) with
    | inl v => finish_get fuel (deep this) v (after_reads this g)
    | inr e =>
        if user this then
          do (_, st) <- handleError e (vm this) (getter_info this) (after_reads this g);
          finish_get fuel (deep this) VUndefined st
        else Throw e (after_reads this g)
    end.
Proof.
  unfold get, after_reads, finish_get, getter_info.
  change (heap (pushTarget (id this) g)) with (heap g).
  destruct (outcome (getter this (heap g) (vm this))) as [v|e]; [reflexivity|].
  destruct (user this); [|reflexivity].
  by destruct (handleError _ _ _ _).
Qed.

Lemma deps_addDep (d : nat) (st : St) :
  deps (addDep d st).1 = deps st.1 /\ depIds (addDep d st).1 = depIds st.1.
Proof.
  destruct st as [t g]. unfold addDep.
  destruct (bool_decide (d ∈ newDepIds t)); [done|].
  by destruct (bool_decide (d ∈ depIds t)).
Qed.

Lemma deps_track (ds : list nat) (st : St) :
  deps (track ds st).1 = deps st.1 /\ depIds (track ds st).1 = depIds st.1.
Proof.
  induction ds as [|d ds IH] using rev_ind; [done|].
  rewrite track_snoc. destruct (deps_addDep d (track ds st)) as [-> ->]. exact IH.
Qed.

Lemma after_reads_facts (this : Watcher) (g : World) :
  targetStack (after_reads this g).2 = id this :: targetStack g
  /\ config (after_reads this g).2 = config g
  /\ calls (after_reads this g).2 = EvGetter (id this) :: calls g
  /\ deps (after_reads this g).1 = deps this.
Proof.
  unfold after_reads. split_and!.
  - by rewrite targetStack_track.
  - by destruct (frame_track (touched (getter this (heap g) (vm this)))
                   (this, emit (EvGetter (id this)) (pushTarget (id this) g)))
      as [_ (_&_&_&_&?)].
  - by rewrite calls_track.
  - by destruct (deps_track (touched (getter this (heap g) (vm this)))
                   (this, emit (EvGetter (id this)) (pushTarget (id this) g))) as [-> _].
Qed.

Lemma events_addDep (d : nat) (st : St) : events is_report (addDep d st).2 = events is_report st.2.
Proof.
  destruct st as [this g]. unfold addDep.
  destruct (bool_decide (d ∈ newDepIds this)); simpl; [done|].
  destruct (bool_decide (d ∈ depIds this)); simpl; [done|].
  unfold events. by rewrite log_addSub.
Qed.

Lemma events_track (ds : list nat) (st : St) : events is_report (track ds st).2 = events is_report st.2.
Proof.
  induction ds as [|d ds IH] using rev_ind; [done|].
  by rewrite track_snoc, events_addDep.
Qed.

Lemma events_unsubscribe (p : nat -> bool) (w : nat) (l : list nat) (g : World) :
  events is_report (unsubscribe p w l g) = events is_report g.
Proof.
  revert g. induction l as [|d l IH]; intros g; [done|].
  rewrite unsubscribe_cons, IH. by destruct (p d).
Qed.

Lemma after_cleanupDeps (st : St) :
  targetStack (cleanupDeps st).2 = targetStack st.2
  /\ newDeps (cleanupDeps st).1 = [] /\ newDepIds (cleanupDeps st).1 = ∅
  /\ events is_report (cleanupDeps st).2 = events is_report st.2.
Proof.
  destruct st as [t g]. rewrite cleanupDeps_unfold. cbn [fst snd]. split_and!; try done.
  - apply unsubscribe_outside.
  - apply events_unsubscribe.
Qed.

Lemma handleError_handled (err : error) (v : nat) (info : string) (t : Watcher) (g : World)
      (handler : ErrorHandler) :
  errorHandler (config g) = Some handler ->
  exists g', handleError err v info (t, g)
             = match handler err v info with
               | None => Return tt (t, g')
               | Some e => Throw e (t, g')
               end
             /\ targetStack g' = targetStack g /\ heap g' = heap g
             /\ events is_report g' = EvErrorHandler err v info :: events is_report g.
Proof.
  unfold handleError. intros ->. eexists. by split_and!.
Qed.

Lemma handleError_unhandled (err : error) (v : nat) (info : string) (t : Watcher) (g : World) :
  errorHandler (config g) = None ->
  exists g', handleError err v info (t, g)
             = (if interactive (config g) then Return tt (t, g') else Throw err (t, g'))
             /\ targetStack g' = targetStack g /\ heap g' = heap g
             /\ events is_report g'
                = (if interactive (config g) then [EvConsoleError err] else [])
                    ++ error_warning (config g) err v info ++ events is_report g.
Proof.
  unfold handleError, interactive, error_warning. intros ->.
  destruct (production (config g)); simpl;
    (destruct (inBrowser (config g) && hasConsole (config g)); eexists; by split_and!).
Qed.

Lemma traverse_scalar (fuel : nat) (h : Heap) (v : JSValue) :
  isObject v = false -> 1 <= fuel -> traverse fuel h v = Some (mkWalk ∅ [] []).
Proof.
  intros Hv Hf. destruct fuel as [|n]; [lia|].
  unfold traverse. destruct v; try done.
Qed.

(** The tail of [get] on a value that is not an object. *)
Lemma finish_get_scalar (fuel : nat) (dp : bool) (v : JSValue) (st : St) :
  isObject v = false -> (dp = true -> 1 <= fuel) ->
  exists st', finish_get fuel dp v st = Return v st'
              /\ targetStack st'.2 = tail (targetStack st.2)
              /\ newDeps st'.1 = [] /\ newDepIds st'.1 = ∅
              /\ events is_report st'.2 = events is_report st.2.
Proof.
  intros Hv Hf. destruct st as [t g]. unfold finish_get. destruct dp.
  - rewrite (traverse_scalar fuel _ v Hv (Hf eq_refl)). cbn [bind reads seen fst snd].
    change (track [] (t, set_seenObjects ∅ g)) with (t, set_seenObjects ∅ g).
    cbn [fst snd]. eexists. split; [reflexivity|].
    by destruct (after_cleanupDeps (t, popTarget (set_seenObjects ∅ g))) as (-> & -> & -> & ->).
  - cbn [bind fst snd]. eexists. split; [reflexivity|].
    by destruct (after_cleanupDeps (t, popTarget g)) as (-> & -> & -> & ->).
Qed.

Lemma finish_get_scalar_state (fuel : nat) (dp : bool) (v : JSValue) (t : Watcher) (g : World) :
  isObject v = false -> (dp = true -> 1 <= fuel) ->
  exists g', finish_get fuel dp v (t, g) = Return v (cleanupDeps (t, popTarget g'))
             /\ log g' = log g.
Proof.
  intros Hv Hf. unfold finish_get. destruct dp.
  - rewrite (traverse_scalar fuel _ v Hv (Hf eq_refl)). cbn [bind reads seen fst snd].
    change (track [] (t, set_seenObjects ∅ g)) with (t, set_seenObjects ∅ g).
    by exists (set_seenObjects ∅ g).
  - by exists g.
Qed.

(** X4. Containment of a read error on a user watcher. When the read
    function of a watcher with the user flag throws, [get] hands the error
    to [handleError] with the scope and the label of the watcher, and what
    follows is what [handleError] does. With a configured handler, that
    handler is called with the error, the scope and the label, and nothing
    else is reported; without one, the warning is given outside production
    and, in an interactive context, the error goes to [console.error].
    Where [handleError] returns (the handler returns, or there is none and
    the context is interactive), the evaluation goes on with [undefined]:
    [get] returns [undefined], the target stack is popped back and the
    working set is reconciled and emptied. Where it throws (the handler
    throws, or there is none and the context is not interactive), that
    exception leaves [get] with the watcher still on the target stack. *)
Theorem user_getter_error (fuel : nat) (this : Watcher) (g : World) (e : error) :
  user this = true ->
  outcome (getter this (heap g) (vm this)) = inr e ->
  (deep this = true -> 1 <= fuel) ->
  (forall handler, errorHandler (config g) = Some handler ->
     match handler e (vm this) (getter_info this) with
     | None =>
         exists st', get fuel (this, g) = Return VUndefined st'
                     /\ targetStack st'.2 = targetStack g
                     /\ newDeps st'.1 = [] /\ newDepIds st'.1 = ∅
                     /\ events is_report st'.2
                        = EvErrorHandler e (vm this) (getter_info this) :: events is_report g
     | Some e' =>
         exists st, get fuel (this, g) = Throw e' st
                    /\ targetStack st.2 = id this :: targetStack g
                    /\ events is_report st.2
                       = EvErrorHandler e (vm this) (getter_info this) :: events is_report g
     end)
  /\ (errorHandler (config g) = None -> interactive (config g) = true ->
        exists st', get fuel (this, g) = Return VUndefined st'
                    /\ targetStack st'.2 = targetStack g
                    /\ newDeps st'.1 = [] /\ newDepIds st'.1 = ∅
                    /\ events is_report st'.2
                       = EvConsoleError e
                           :: error_warning (config g) e (vm this) (getter_info this)
                           ++ events is_report g)
  /\ (errorHandler (config g) = None -> interactive (config g) = false ->
        exists st, get fuel (this, g) = Throw e st
                   /\ targetStack st.2 = id this :: targetStack g
                   /\ events is_report st.2
                      = error_warning (config g) e (vm this) (getter_info this)
                          ++ events is_report g).
Proof.
  intros Hu Ho Hf. rewrite get_unfold, Ho, Hu.
  destruct (after_reads_facts this g) as (Ht & Hc & _ & _).
  assert (Hev : events is_report (after_reads this g).2 = events is_report g).
  { unfold after_reads. by rewrite events_track. }
  destruct (after_reads this g) as [t1 g1]. cbn [fst snd] in *.
  split_and!.
  - intros h Hh. rewrite <- Hc in Hh.
    destruct (handleError_handled e (vm this) (getter_info this) t1 g1 h Hh)
      as (g' & -> & Ht' & _ & Hr).
    destruct (h e (vm this) (getter_info this)) as [e'|]; cbn [bind].
    + eexists. split; [reflexivity|]. cbn [fst snd]. by rewrite Ht', Ht, Hr, Hev.
    + destruct (finish_get_scalar fuel (deep this) VUndefined (t1, g') eq_refl Hf)
        as (st' & -> & Hs & Hn & Hi & Hev').
      exists st'. split_and!; try done.
      * cbn [fst snd] in Hs. by rewrite Hs, Ht', Ht.
      * rewrite Hev'. cbn [snd]. by rewrite Hr, Hev.
  - intros Heh Hi. rewrite <- Hc in Heh.
    destruct (handleError_unhandled e (vm this) (getter_info this) t1 g1 Heh)
      as (g' & -> & Ht' & _ & Hr). rewrite Hc, Hi in *. cbn [bind].
    destruct (finish_get_scalar fuel (deep this) VUndefined (t1, g') eq_refl Hf)
      as (st' & -> & Hs & Hn & Hi' & Hev').
    exists st'. split_and!; try done.
    + cbn [fst snd] in Hs. by rewrite Hs, Ht', Ht.
    + rewrite Hev'. cbn [snd]. by rewrite Hr, Hev.
  - intros Heh Hi. rewrite <- Hc in Heh.
    destruct (handleError_unhandled e (vm this) (getter_info this) t1 g1 Heh)
      as (g' & -> & Ht' & _ & Hr). rewrite Hc, Hi in *. cbn [bind].
    eexists. split; [reflexivity|]. cbn [fst snd]. by rewrite Ht', Ht, Hr, Hev.
Qed.

Lemma user_getter_error_witness :
  exists st, get 0 (failing_user, world0 node_config) = Throw "boom" st
             /\ targetStack st.2 = id failing_user :: targetStack (world0 node_config)
             /\ events is_report st.2
                = error_warning node_config "boom" (vm failing_user) (getter_info failing_user)
                    ++ events is_report (world0 node_config).
Proof.
  assert (Hd : deep failing_user = true -> 1 <= 0) by (intros Hd; discriminate Hd).
  exact (proj2 (proj2 (user_getter_error 0 failing_user (world0 node_config) "boom"
                         eq_refl eq_refl Hd)) eq_refl eq_refl).
Defined.

(** X5. Propagation of a read error on an internal watcher. When the read
    function of a watcher without the user flag throws, [get] throws the
    same error at once: nothing is reported, the read function was called
    once, the watcher is left on the target stack (no [popTarget]), its
    dependency list is the old one and, for a watcher that was settled, the
    working set still holds the subjects read before the throw (no
    [cleanupDeps]). *)
Theorem internal_getter_error (fuel : nat) (this : Watcher) (g : World) (e : error) :
  user this = false ->
  outcome (getter this (heap g) (vm this)) = inr e ->
  exists st, get fuel (this, g) = Throw e st
             /\ targetStack st.2 = id this :: targetStack g
             /\ events is_report st.2 = events is_report g
             /\ calls st.2 = EvGetter (id this) :: calls g
             /\ deps st.1 = deps this
             /\ (settled this -> unique_subscribers g ->
                   forall d, d ∈ newDeps st.1 <-> d ∈ touched (getter this (heap g) (vm this))).
Proof.
  intros Hu Ho. rewrite get_unfold, Ho, Hu. exists (after_reads this g).
  destruct (after_reads_facts this g) as (Ht & _ & Hc & Hd).
  split_and!; try done.
  - unfold after_reads. by rewrite events_track.
  - intros (Hn & Hi & _) Huq.
    pose proof (collecting_track this g [] (touched (getter this (heap g) (vm this)))
                  (this, emit (EvGetter (id this)) (pushTarget (id this) g))
                  (collecting_start this g _ Hn Hi Huq eq_refl)) as (_&_&_&_&_&H&_).
    exact H.
Qed.

Lemma internal_getter_error_witness :
  exists st, get 0 (failing_internal, world0 dev_config) = Throw "boom" st
             /\ targetStack st.2 = id failing_internal :: targetStack (world0 dev_config).
Proof.
  destruct (internal_getter_error 0 failing_internal (world0 dev_config) "boom" eq_refl eq_refl)
    as (st & H1 & H2 & _).
  exists st. by split.
Defined.

(** ** Deep traversal *)

Lemma continues_refl (h : Heap) (w : Walk) : continues h w w.
Proof.
  exists []. rewrite app_nil_r. split_and!; [done|constructor|set_solver|set_solver].
Qed.

Lemma continues_trans (h : Heap) (a b c : Walk) :
  continues h a b -> continues h b c -> continues h a c.
Proof.
  intros (e1 & He1 & Hn1 & Hf1 & Hs1) (e2 & He2 & Hn2 & Hf2 & Hs2).
  exists (e1 ++ e2). unfold obs_ids in *. rewrite omap_app. split_and!.
  - by rewrite He2, He1, app_assoc.
  - apply NoDup_app. split_and!; [done| |done].
    intros d Hd1 Hd2. apply (Hf2 d Hd2). rewrite Hs1. set_solver.
  - intros d [Hd|Hd]%elem_of_app; [by apply Hf1|].
    intros Hin. apply (Hf2 d Hd). rewrite Hs1. set_solver.
  - rewrite Hs2, Hs1. set_solver.
Qed.

Lemma continues_seen (h : Heap) (w w' : Walk) : continues h w w' -> seen w ⊆ seen w'.
Proof. intros (es & _ & _ & _ & ->). set_solver. Qed.

Lemma continues_walk_read (h : Heap) (ds : list nat) (w : Walk) : continues h w (walk_read ds w).
Proof.
  exists []. simpl. rewrite app_nil_r. split_and!; [done|constructor|set_solver|set_solver].
Qed.

Lemma continues_walk_enter (h : Heap) (l : nat) (o : Obj) (w w1 : Walk) :
  h !! l = Some o -> walk_enter l o w = Some w1 -> continues h w w1.
Proof.
  intros Hl. unfold walk_enter. destruct (__ob__ o) as [d|] eqn:Eo.
  - destruct (bool_decide_reflect (d ∈ seen w)) as [|Hn]; [done|].
    intros [= <-]. exists [l]. unfold obs_ids; simpl. rewrite Hl, Eo. simpl.
    split_and!; [done|apply NoDup_singleton| |set_solver].
    by intros d' ->%list_elem_of_singleton.
  - intros [= <-]. exists [l]. unfold obs_ids; simpl. rewrite Hl, Eo. simpl.
    split_and!; [done|constructor|set_solver|set_solver].
Qed.

Lemma _traverse_leaf (n : nat) (h : Heap) (v : JSValue) (w : Walk) :
  isObject v = false \/ Object_isExtensible h v = false -> _traverse (S n) h v w = Some w.
Proof.
  intros [Hv|Hv]; simpl.
  - destruct v; try done.
  - rewrite Hv. by rewrite orb_true_r.
Qed.

Lemma _traverse_object (n : nat) (h : Heap) (l : nat) (o : Obj) (w : Walk) :
  h !! l = Some o -> extensible o = true ->
  _traverse (S n) h (VRef l) w =
    match walk_enter l o w with
    | None => Some w
    | Some w1 => visit_slots n h (Some w1) (rev (slots o))
    end.
Proof. intros Hl He. simpl. rewrite Hl, He. simpl. by rewrite andb_false_r. Qed.

Lemma visit_slots_None (n : nat) (h : Heap) (l : list Slot) : visit_slots n h None l = None.
Proof. by induction l. Qed.

Lemma visit_slots_cons (n : nat) (h : Heap) (acc : Walk) (s : Slot) (l : list Slot) :
  visit_slots n h (Some acc) (s :: l) =
    visit_slots n h (_traverse n h (stored s) (walk_read (read_slot h s) acc)) l.
Proof. done. Qed.

(** The cases of a call of [_traverse] on a positive depth. *)
Lemma _traverse_cases (n : nat) (h : Heap) (v : JSValue) (w : Walk) :
  _traverse (S n) h v w = Some w
  \/ exists l o w1, v = VRef l /\ h !! l = Some o /\ extensible o = true
                    /\ walk_enter l o w = Some w1
                    /\ _traverse (S n) h v w = visit_slots n h (Some w1) (rev (slots o)).
Proof.
  destruct v as [| | | | |l]; try (left; by apply _traverse_leaf; left).
  destruct (h !! l) as [o|] eqn:Hl.
  - destruct (extensible o) eqn:He.
    + rewrite (_traverse_object n h l o w Hl He).
      destruct (walk_enter l o w) as [w1|] eqn:Hw; [|by left].
      right. by exists l, o, w1.
    + left. apply _traverse_leaf. right. simpl. by rewrite Hl.
  - left. apply _traverse_leaf. right. simpl. by rewrite Hl.
Qed.

Lemma _traverse_continues (n : nat) (h : Heap) (v : JSValue) (w w' : Walk) :
  _traverse n h v w = Some w' -> continues h w w'.
Proof.
  revert v w w'. induction n as [|n IH]; intros v w w'; [done|].
  destruct (_traverse_cases n h v w) as [->|(l & o & w1 & -> & Hl & He & Hw & ->)].
  - intros [= <-]. apply continues_refl.
  - intros Hv. eapply continues_trans; [by eapply continues_walk_enter|].
    clear Hw. revert Hv. generalize (rev (slots o)). intros ss. revert w1.
    induction ss as [|s ss IHs]; intros w1 Hv.
    + injection Hv as <-. apply continues_refl.
    + rewrite visit_slots_cons in Hv.
      destruct (_traverse n h (stored s) (walk_read (read_slot h s) w1)) as [w2|] eqn:E.
      * eapply continues_trans; [apply (continues_walk_read h (read_slot h s))|].
        eapply continues_trans; [by eapply IH|]. by apply IHs.
      * by rewrite visit_slots_None in Hv.
Qed.

(** X6. One visit per observed container. Whatever depth it is given, a
    top-level [traverse] that returns has gone into objects whose container
    ids are pairwise different, and its [seen] set is exactly the set of
    those ids: no observed container is entered twice in one call, also
    when the structure is cyclic or shares substructure. *)
Theorem traverse_visits_once (fuel : nat) (h : Heap) (v : JSValue) (w : Walk) :
  traverse fuel h v = Some w ->
  NoDup (obs_ids h (entered w))
  /\ seen w = list_to_set (obs_ids h (entered w)).
Proof.
  intros Ht. destruct (_traverse_continues fuel h v _ w Ht) as (es & He & Hn & _ & Hs).
  simpl in He, Hs. subst es. split; [done|]. rewrite Hs. set_solver.
Qed.

Lemma traverse_visits_once_witness :
  NoDup (obs_ids ring_heap (entered (mkWalk {[10; 11]} [20; 11; 21; 10] [0; 1]))).
Proof.
  assert (Ht : traverse 3 ring_heap (VRef 0) = Some (mkWalk {[10; 11]} [20; 11; 21; 10] [0; 1])).
  { vm_compute. reflexivity. }
  exact (proj1 (traverse_visits_once 3 ring_heap (VRef 0) _ Ht)).
Defined.

Lemma value_rank_bound (h : Heap) (rank : nat -> nat) (R : nat) (v : JSValue) :
  (forall l, rank l <= R) -> value_rank h rank v <= R + 1.
Proof.
  intros Hr. unfold value_rank. destruct v as [| | | | |l]; try lia.
  destruct (h !! l) as [o|]; [|lia]. destruct (__ob__ o); [lia|]. specialize (Hr l). lia.
Qed.

Lemma depth_needed_mono (h : Heap) (rank : nat -> nat) (U : gset nat) (R : nat)
      (s s' : gset nat) (v : JSValue) :
  s ⊆ s' -> depth_needed h rank U R s' v <= depth_needed h rank U R s v.
Proof.
  intros Hs. unfold depth_needed.
  assert (size (U ∖ s') <= size (U ∖ s)) by (apply subseteq_size; set_solver).
  assert (size (U ∖ s') * (R + 2) <= size (U ∖ s) * (R + 2)) by (by apply Nat.mul_le_mono_r).
  lia.
Qed.

(** The slots of an entered object need one level less than the object. *)
Lemma slots_need_less (h : Heap) (rank : nat -> nat) (U : gset nat) (R n : nat)
      (l : nat) (o : Obj) (w w1 : Walk) :
  ranked h rank R -> ids_within h U ->
  h !! l = Some o -> walk_enter l o w = Some w1 ->
  depth_needed h rank U R (seen w) (VRef l) <= S n ->
  forall s sn, s ∈ slots o -> seen w1 ⊆ sn ->
    depth_needed h rank U R sn (stored s) <= n.
Proof.
  intros [Hr Hdown] Hids Hl Hw Hneed s sn Hs Hsn.
  unfold depth_needed in *. simpl in Hneed. rewrite Hl in Hneed.
  unfold walk_enter in Hw. destruct (__ob__ o) as [d|] eqn:Eo.
  - destruct (bool_decide_reflect (d ∈ seen w)) as [|Hd]; [done|].
    injection Hw as <-. simpl in Hsn.
    assert (HdU : d ∈ U) by (by eapply Hids).
    assert (Hsz : S (size (U ∖ sn)) <= size (U ∖ seen w)).
    { assert (size (U ∖ sn) <= size ((U ∖ seen w) ∖ {[d]})) by (apply subseteq_size; set_solver).
      assert (size ((U ∖ seen w) ∖ {[d]}) = size (U ∖ seen w) - size ({[d]} : gset nat))
        by (apply size_difference; set_solver).
      assert (1 <= size (U ∖ seen w)).
      { rewrite <- (size_singleton (C:=gset nat) d). apply subseteq_size. set_solver. }
      rewrite size_singleton in *. lia. }
    pose proof (value_rank_bound h rank R (stored s) Hr).
    assert (S (size (U ∖ sn)) * (R + 2) <= size (U ∖ seen w) * (R + 2))
      by (by apply Nat.mul_le_mono_r).
    lia.
  - injection Hw as <-. simpl in Hsn.
    assert (size (U ∖ sn) <= size (U ∖ seen w)) by (apply subseteq_size; set_solver).
    assert (size (U ∖ sn) * (R + 2) <= size (U ∖ seen w) * (R + 2))
      by (by apply Nat.mul_le_mono_r).
    assert (value_rank h rank (stored s) <= rank l); [|lia].
    unfold value_rank. destruct (stored s) as [| | | | |l'] eqn:Est; try lia.
    destruct (h !! l') as [o'|] eqn:Hl'; [|lia].
    destruct (__ob__ o') eqn:Eo'; [lia|].
    specialize (Hdown l o s l' o' Hl Eo Hs Est Hl' Eo'). lia.
Qed.

Lemma _traverse_enough (h : Heap) (rank : nat -> nat) (U : gset nat) (R : nat) :
  ranked h rank R -> ids_within h U ->
  forall n v w, depth_needed h rank U R (seen w) v <= n ->
                exists w', _traverse n h v w = Some w'.
Proof.
  intros Hrk Hids. induction n as [|n IH]; intros v w Hneed.
  - unfold depth_needed in Hneed. lia.
  - destruct (_traverse_cases n h v w) as [->|(l & o & w1 & -> & Hl & He & Hw & ->)];
      [by eexists|].
    pose proof (slots_need_less h rank U R n l o w w1 Hrk Hids Hl Hw Hneed) as Hch.
    assert (Hin : forall s, s ∈ rev (slots o) -> s ∈ slots o).
    { intros s. rewrite !list_elem_of_In. apply in_rev. }
    revert Hin. generalize (rev (slots o)). intros ss.
    assert (Hacc : seen w1 ⊆ seen w1) by done. revert Hacc.
    generalize w1 at 2 3. induction ss as [|s ss IHs]; intros acc Hacc Hin.
    + by eexists.
    + rewrite visit_slots_cons.
      destruct (IH (stored s) (walk_read (read_slot h s) acc)) as [w2 Hw2].
      { apply Hch; [apply Hin; by left|done]. }
      rewrite Hw2. apply IHs.
      * apply _traverse_continues, continues_seen in Hw2. simpl in Hw2. set_solver.
      * intros s' Hs'. apply Hin. by right.
Qed.

(** X7. Termination of the deep traversal. Let every cycle of the heap go
    through an observed container: the objects that no container wraps can
    be ranked so that the rank drops along every slot from one such object
    to another. Then a depth of (number of container ids + 1) * (highest
    rank + 2) is enough for [traverse] to return on any value, cyclic or
    not. *)
Theorem traverse_terminates (h : Heap) (rank : nat -> nat) (U : gset nat) (R fuel : nat)
        (v : JSValue) :
  ranked h rank R -> ids_within h U ->
  (size U + 1) * (R + 2) <= fuel ->
  exists w, traverse fuel h v = Some w.
Proof.
  intros Hrk Hids Hf. apply (_traverse_enough h rank U R Hrk Hids).
  unfold depth_needed. simpl.
  assert (size (U ∖ ∅) <= size U) by (apply subseteq_size; set_solver).
  assert (size (U ∖ ∅) * (R + 2) <= size U * (R + 2)) by (by apply Nat.mul_le_mono_r).
  pose proof (value_rank_bound h rank R v (proj1 Hrk)). lia.
Qed.

Lemma ring_heap_lookup (l : nat) (o : Obj) :
  ring_heap !! l = Some o -> __ob__ o = Some 10 \/ __ob__ o = Some 11.
Proof.
  unfold ring_heap. rewrite lookup_insert. destruct (decide (0 = l)); [intros [= <-]; by left|].
  rewrite lookup_insert. destruct (decide (1 = l)); [intros [= <-]; by right|].
  by rewrite lookup_empty.
Qed.

Lemma traverse_terminates_witness : exists w, traverse 6 ring_heap (VRef 0) = Some w.
Proof.
  apply (traverse_terminates ring_heap (fun _ => 0) {[10; 11]} 0).
  - split; [intros; lia|]. intros l o s l' o' Hl Ho.
    destruct (ring_heap_lookup l o Hl) as [H|H]; rewrite H in Ho; discriminate Ho.
  - intros l o d Hl Ho.
    destruct (ring_heap_lookup l o Hl) as [H|H]; rewrite H in Ho; injection Ho as <-;
      set_solver.
  - vm_compute. lia.
Defined.

Lemma elem_of_rev_slots (l : list Slot) (x : Slot) : x ∈ rev l <-> x ∈ l.
Proof. rewrite !list_elem_of_In. symmetry. apply in_rev. Qed.

Lemma visit_slots_stuck (n : nat) (h : Heap) (s : Slot) (ss : list Slot) (acc : option Walk) :
  s ∈ ss -> (forall w, _traverse n h (stored s) w = None) -> visit_slots n h acc ss = None.
Proof.
  intros Hs Hn. revert acc. induction ss as [|s0 ss IH]; intros acc.
  - by apply elem_of_nil in Hs.
  - destruct acc as [a|]; [|apply visit_slots_None]. rewrite visit_slots_cons.
    apply elem_of_cons in Hs as [<-|Hs]; [by rewrite Hn, visit_slots_None|by apply IH].
Qed.

Lemma _traverse_unguarded (h : Heap) (C : nat -> Prop) :
  unguarded h C -> forall n l w, C l -> _traverse n h (VRef l) w = None.
Proof.
  intros Hc. induction n as [|n IH]; intros l w Hl; [done|].
  destruct (Hc l Hl) as (o & s & l' & Ho & He & Hob & Hs & Hst & Hl').
  rewrite (_traverse_object n h l o w Ho He). unfold walk_enter. rewrite Hob.
  apply (visit_slots_stuck n h s); [by apply elem_of_rev_slots|].
  intros w'. rewrite Hst. by apply IH.
Qed.

(** X8. No guard without a container. [_traverse] stops at a value it has
    met before only through the [__ob__] id of an observed container. On a
    cycle of extensible objects that no container wraps the recursion never
    comes back: no depth is enough, and a deep watcher whose read function
    returns such an object never gets out of [get]. *)
Theorem traverse_unguarded_cycle (h : Heap) (C : nat -> Prop) (l : nat) :
  unguarded h C -> C l ->
  (forall fuel, traverse fuel h (VRef l) = None)
  /\ (forall fuel this g,
        deep this = true -> heap g = h ->
        outcome (getter this (heap g) (vm this)) = inl (VRef l) ->
        get fuel (this, g) = Diverge).
Proof.
  intros Hc Hl. split.
  - intros fuel. by apply (_traverse_unguarded h C Hc).
  - intros fuel this g Hd Hh Ho. rewrite get_unfold, Ho, Hd. unfold finish_get.
    assert (Hheap : heap (after_reads this g).2 = h).
    { rewrite <- Hh. unfold after_reads.
      by destruct (frame_track (touched (getter this (heap g) (vm this)))
                     (this, emit (EvGetter (id this)) (pushTarget (id this) g)))
        as [_ (_&_&?&_)]. }
    rewrite Hheap. unfold traverse. by rewrite (_traverse_unguarded h C Hc).
Qed.

Lemma traverse_unguarded_cycle_witness : traverse 5 loop_heap (VRef 0) = None.
Proof.
  apply (traverse_unguarded_cycle loop_heap (fun l => l = 0) 0); [|reflexivity].
  intros l ->. eexists _, (mkSlot "self" None (VRef 0)), 0.
  split_and!; try reflexivity. by left.
Defined.

(** ** Construction *)

Lemma new_Watcher_unfold (parsePath : string -> option Getter) (fuel vm_ : nat) (e : ExpOrFn)
      (cb_ : Callback) (options : option Options) (g : World) :
  new_Watcher parsePath fuel vm_ e cb_ options g =
    if opt_lazy (options_or_default options)
    then Return tt (fresh_watcher parsePath vm_ e cb_ options g, registered parsePath vm_ e g)
    else do (v, st) <- get fuel (fresh_watcher parsePath vm_ e cb_ options g,
                                 registered parsePath vm_ e g);
         Return tt (set_value v st.1, st.2).
Proof.
  unfold new_Watcher, fresh_watcher, registered, resolved_getter, construction_reports,
    options_or_default, bad_path_message.
  destruct e as [path|src f]; [destruct (parsePath path)|];
    destruct options as [[dp us lz sy]|]; cbn [opt_lazy opt_deep opt_user opt_sync lazy];
    try destruct lz; try reflexivity;
    unfold warn, emit, set_uid, set_vms; cbn [config production];
    destruct (production (config g)); reflexivity.
Qed.

Lemma final_construction (fuel : nat) (s0 st' : St) :
  final (do (v, st) <- get fuel s0; Return tt (set_value v st.1, st.2)) = Some st' ->
  exists st1, final (get fuel s0) = Some st1 /\ st'.2 = st1.2
              /\ (st'.1 = st1.1 \/ exists v, get fuel s0 = Return v st1 /\ st'.1 = set_value v st1.1).
Proof.
  destruct (get fuel s0) as [v st1|e st1|] eqn:E; cbn [bind final]; [| |done].
  - same_state. exists st1. split_and!; [done|done|]. right. by exists v.
  - same_state. exists st'. split_and!; [done|done|by left].
Qed.

(** X9. What every construction does. Whatever the options and however
    the first evaluation ends (it returns or it throws), the new watcher
    has the id [uid + 1], [uid] is advanced to that id, so ids grow strictly
    from one construction to the next, the watcher is active, belongs to
    the given scope, and its id has been appended to the scope's
    [_watchers]. A lazy watcher is not evaluated at all: its value is
    [undefined], it starts dirty, all four dependency collections are empty,
    no read function or callback was called and no subscriber list changed.
    A watcher that is not lazy has had its read function called exactly
    once, and is not dirty. *)
Theorem construction_registers (parsePath : string -> option Getter) (fuel vm_ : nat)
        (e : ExpOrFn) (cb_ : Callback) (options : option Options) (g : World) (st' : St) :
  final (new_Watcher parsePath fuel vm_ e cb_ options g) = Some st' ->
  (id st'.1 = S (uid g) /\ uid st'.2 = S (uid g)
   /\ active st'.1 = true /\ vm st'.1 = vm_
   /\ _watchers (component st'.2 vm_) = _watchers (component g vm_) ++ [S (uid g)])
  /\ (opt_lazy (options_or_default options) = true ->
        new_Watcher parsePath fuel vm_ e cb_ options g = Return tt st'
        /\ value st'.1 = VUndefined /\ dirty st'.1 = true
        /\ deps st'.1 = [] /\ newDeps st'.1 = [] /\ depIds st'.1 = ∅ /\ newDepIds st'.1 = ∅
        /\ calls st'.2 = calls g /\ subs st'.2 = subs g)
  /\ (opt_lazy (options_or_default options) = false ->
        calls st'.2 = EvGetter (S (uid g)) :: calls g /\ dirty st'.1 = false).
Proof.
  rewrite new_Watcher_unfold. destruct (opt_lazy (options_or_default options)) eqn:El.
  - cbn [final]. same_state. cbn [fst snd]. split_and!; try done.
    + unfold component, registered; simpl. by rewrite lookup_insert_eq.
    + intros _. split_and!; try done.
      unfold calls, registered, construction_reports; simpl.
      destruct e as [path|]; [|done]. destruct (parsePath path); [done|].
      by destruct (production (config g)).
  - intros (st1 & Hf & Hw & Ht)%final_construction.
    pose proof (frame_get fuel _ st1 Hf) as Hfr.
    pose proof (calls_get fuel _ st1 Hf) as Hc.
    destruct (frame_fields _ _ Hfr) as (Hvm & Hid & _ & Hdi & Hac & _).
    destruct Hfr as [_ (Hu & Hv & _)]. cbn [fst snd] in *.
    assert (Hsame : id st'.1 = id st1.1 /\ active st'.1 = active st1.1
                    /\ vm st'.1 = vm st1.1 /\ dirty st'.1 = dirty st1.1).
    { destruct Ht as [->|(v & _ & ->)]; by split_and!. }
    destruct Hsame as (-> & -> & -> & ->). rewrite Hw.
    split_and!; try done.
    + unfold component. rewrite Hv. unfold registered; simpl. by rewrite lookup_insert_eq.
    + intros _. split; [|rewrite Hdi; exact El]. rewrite Hc. cbn [id fresh_watcher]. f_equal.
      unfold calls, registered, construction_reports; simpl.
      destruct e as [path|]; [|done]. destruct (parsePath path); [done|].
      by destruct (production (config g)).
Qed.

Lemma construction_registers_witness :
  id live_watcher.1 = 1 /\ uid live_watcher.2 = 1.
Proof.
  assert (Hf : final (new_Watcher no_paths 0 1 (Func "f" (const_getter [1; 2; 1] (VNum 1)))
                        quiet_cb None (world0 dev_config)) = Some live_watcher)
    by (vm_compute; reflexivity).
  destruct (construction_registers _ _ _ _ _ _ _ _ Hf) as ((H1 & H2 & _) & _).
  split; [exact H1|exact H2].
Defined.

(** X10. A path that does not parse. When the constructor is given an
    expression string that [parsePath] rejects, the watcher gets the empty
    function as its read function; construction still returns (a deep
    watcher needs one level of traversal depth for the [undefined] it
    walks), the value is [undefined] and there are no dependencies. The
    "Failed watching path" warning for the scope is the only thing reported,
    and only outside production: a production build reports nothing. *)
Theorem construction_bad_path (parsePath : string -> option Getter) (fuel vm_ : nat)
        (path : string) (cb_ : Callback) (options : option Options) (g : World) :
  parsePath path = None ->
  (opt_deep (options_or_default options) = true -> 1 <= fuel) ->
  exists st', new_Watcher parsePath fuel vm_ (Expr path) cb_ options g = Return tt st'
              /\ getter st'.1 = noop_getter
              /\ value st'.1 = VUndefined
              /\ deps st'.1 = []
              /\ events is_report st'.2
                 = (if production (config g) then []
                    else [EvWarn (bad_path_message path) vm_]) ++ events is_report g.
Proof.
  intros Hp Hf. rewrite new_Watcher_unfold.
  assert (Hrep : events is_report (registered parsePath vm_ (Expr path) g)
                 = (if production (config g) then []
                    else [EvWarn (bad_path_message path) vm_]) ++ events is_report g).
  { unfold events, registered, construction_reports; simpl. rewrite Hp.
    by destruct (production (config g)). }
  assert (Hg : getter (fresh_watcher parsePath vm_ (Expr path) cb_ options g) = noop_getter).
  { unfold fresh_watcher, resolved_getter; simpl. by rewrite Hp. }
  destruct (opt_lazy (options_or_default options)) eqn:El.
  - eexists. split; [reflexivity|]. by split_and!.
  - rewrite get_unfold, Hg. cbn [noop_getter outcome].
    assert (Hs1 : after_reads (fresh_watcher parsePath vm_ (Expr path) cb_ options g)
                              (registered parsePath vm_ (Expr path) g)
                  = (fresh_watcher parsePath vm_ (Expr path) cb_ options g,
                     emit (EvGetter (S (uid g)))
                          (pushTarget (S (uid g)) (registered parsePath vm_ (Expr path) g)))).
    { unfold after_reads. by rewrite Hg. }
    rewrite Hs1.
    destruct (finish_get_scalar_state fuel
                (deep (fresh_watcher parsePath vm_ (Expr path) cb_ options g)) VUndefined
                (fresh_watcher parsePath vm_ (Expr path) cb_ options g)
                (emit (EvGetter (S (uid g)))
                      (pushTarget (S (uid g)) (registered parsePath vm_ (Expr path) g)))
                eq_refl Hf) as (g' & -> & Hlog).
    cbn [bind]. eexists. split; [reflexivity|]. rewrite cleanupDeps_unfold. cbn [fst snd].
    split_and!; [done|done|done|].
    rewrite events_unsubscribe. unfold events in *. cbn [log popTarget set_targetStack].
    rewrite Hlog. exact Hrep.
Qed.

Lemma construction_bad_path_witness :
  exists st', bad_path_construction = Return tt st' /\ getter st'.1 = noop_getter.
Proof.
  assert (Hd : opt_deep (options_or_default None) = true -> 1 <= 1) by (intros _; lia).
  destruct (construction_bad_path no_paths 1 7 "a b" quiet_cb None (world0 prod_config)
              eq_refl Hd) as (st' & H1 & H2 & _).
  exists st'. split; [exact H1|exact H2].
Defined.

(** X11. Eager construction collects the first dependencies. When the
    watcher is neither lazy nor deep and its read function returns [v],
    construction returns, the stored value is [v], the dependency list holds
    exactly the subjects the read function went through, without
    duplicates, and the new watcher is subscribed to exactly those (given
    that no subscriber list mentioned the fresh id or held anybody twice);
    the target stack is as before. *)
Theorem construction_eager (parsePath : string -> option Getter) (fuel vm_ : nat)
        (e : ExpOrFn) (cb_ : Callback) (options : option Options) (g : World) (v : JSValue) :
  opt_lazy (options_or_default options) = false ->
  opt_deep (options_or_default options) = false ->
  outcome (resolved_getter parsePath e (heap g) vm_) = inl v ->
  unique_subscribers g ->
  (forall d, S (uid g) ∉ subs_of g d) ->
  exists st', new_Watcher parsePath fuel vm_ e cb_ options g = Return tt st'
              /\ value st'.1 = v
              /\ NoDup (deps st'.1)
              /\ (forall d, d ∈ deps st'.1 <-> d ∈ touched (resolved_getter parsePath e (heap g) vm_))
              /\ subscribed st'
              /\ unique_subscribers st'.2
              /\ targetStack st'.2 = targetStack g.
Proof.
  intros Hl Hdp Ho Hu Hfresh. rewrite new_Watcher_unfold, Hl.
  set (t0 := fresh_watcher parsePath vm_ e cb_ options g).
  set (g0 := registered parsePath vm_ e g).
  assert (Hu0 : unique_subscribers g0) by exact Hu.
  assert (Hget : exists st1, get fuel (t0, g0) = Return v st1).
  { rewrite get_unfold. cbn [getter t0 fresh_watcher heap g0 registered vm deep].
    rewrite Ho, Hdp. unfold finish_get. cbn [bind]. by eexists. }
  destruct Hget as [st1 Hget]. rewrite Hget. cbn [bind].
  destruct (get_Return fuel t0 g0 v st1 eq_refl eq_refl Hu0 Hget) as (st & Hc & -> & Ht).
  assert (Hreads : evaluation_reads fuel t0 g0 v
                   = touched (resolved_getter parsePath e (heap g) vm_)).
  { unfold evaluation_reads, deep_reads.
    cbn [getter t0 fresh_watcher heap g0 registered vm deep]. rewrite Hdp. apply app_nil_r. }
  rewrite Hreads in Hc.
  destruct (collecting_cleanupDeps t0 g0 _ st eq_refl Hc)
    as (_ & Hu' & Hnd & Hd & _ & Hr & _ & Hkeep).
  assert (Hid0 : id t0 = S (uid g)) by reflexivity.
  assert (Hd0 : deps t0 = []) by reflexivity.
  assert (Hs0 : forall d, subs_of g0 d = subs_of g d) by reflexivity.
  assert (Hts : targetStack g0 = targetStack g) by reflexivity.
  assert (Hid : id (cleanupDeps (st.1, popTarget st.2)).1 = S (uid g)).
  { rewrite cleanupDeps_unfold. cbn [fst id set_tracking].
    destruct Hc as (_ & _ & Hc3 & _). rewrite Hc3. exact Hid0. }
  clearbody t0 g0.
  eexists. split; [reflexivity|]. cbn [fst snd value deps set_value].
  split_and!; try done.
  - intros d. cbn [fst snd deps id set_value]. rewrite Hid, Hd.
    destruct (decide (d ∈ touched (resolved_getter parsePath e (heap g) vm_))) as [Hin|Hin].
    + rewrite <- Hid0, (Hr d Hin). split; [done|]. intros _.
      right. rewrite Hd0. apply not_elem_of_nil.
    + assert (Hnil : d ∉ deps t0) by (rewrite Hd0; apply not_elem_of_nil).
      rewrite <- Hid0, (Hkeep d Hin Hnil), Hs0, Hid0.
      split; [|done]. intros Hw. by destruct (Hfresh d).
  - rewrite cleanupDeps_unfold. cbn [fst snd].
    destruct (unsubscribe_outside
                (fun dep => negb (bool_decide (dep ∈ newDepIds st.1))) (id st.1)
                (rev (deps st.1)) (popTarget st.2)) as [_ ->].
    unfold popTarget; simpl. by rewrite Ht, Hts.
Qed.

Lemma construction_eager_witness :
  exists st', new_Watcher no_paths 0 1 (Func "f" (const_getter [1; 2; 1] (VNum 1))) quiet_cb
                          None (world0 dev_config) = Return tt st'
              /\ value st'.1 = VNum 1.
Proof.
  assert (Hf : forall d, 1 ∉ subs_of (world0 dev_config) d) by (intros d; apply not_elem_of_nil).
  destruct (construction_eager no_paths 0 1 (Func "f" (const_getter [1; 2; 1] (VNum 1)))
              quiet_cb None (world0 dev_config) (VNum 1) eq_refl eq_refl eq_refl
              (unique_subscribers_world0 dev_config) Hf) as (st' & H1 & H2 & _).
  exists st'. split; [exact H1|exact H2].
Defined.

(** ** Computed properties: [depend] and [computedGetter] *)

Lemma newDepIds_addDep (d : nat) (st : St) :
  newDepIds (addDep d st).1 = {[d]} ∪ newDepIds st.1 /\ id (addDep d st).1 = id st.1.
Proof.
  destruct st as [t g]. unfold addDep.
  destruct (bool_decide_reflect (d ∈ newDepIds t)); cbn [negb fst]; [split; [set_solver|done]|].
  by destruct (bool_decide (d ∈ depIds t)).
Qed.

Lemma newDepIds_track (ds : list nat) (st : St) :
  newDepIds (track ds st).1 = list_to_set ds ∪ newDepIds st.1 /\ id (track ds st).1 = id st.1.
Proof.
  induction ds as [|d ds [IH1 IH2]] using rev_ind; [split; [set_solver|done]|].
  rewrite track_snoc. destruct (newDepIds_addDep d (track ds st)) as [-> ->].
  rewrite IH1, IH2. split; [set_solver|done].
Qed.

Lemma subs_addDep_mono (d d' x : nat) (st : St) :
  x ∈ subs_of st.2 d' -> x ∈ subs_of (addDep d st).2 d'.
Proof.
  destruct st as [t g]. unfold addDep.
  destruct (bool_decide (d ∈ newDepIds t)); cbn [negb snd]; [done|].
  destruct (bool_decide (d ∈ depIds t)); cbn [negb snd]; [done|].
  rewrite subs_of_addSub, !subs_of_emit. destruct (decide (d = d')) as [<-|]; [|done].
  destruct (bool_decide (id t ∈ subs_of g d)); [done|]. set_solver.
Qed.

Lemma subs_track_mono (ds : list nat) (d' x : nat) (st : St) :
  x ∈ subs_of st.2 d' -> x ∈ subs_of (track ds st).2 d'.
Proof.
  intros Hx. induction ds as [|d ds IH] using rev_ind; [done|].
  rewrite track_snoc. by apply subs_addDep_mono.
Qed.

Lemma subs_addDep_new (d : nat) (st : St) :
  d ∉ depIds st.1 -> d ∉ newDepIds st.1 -> id st.1 ∈ subs_of (addDep d st).2 d.
Proof.
  destruct st as [t g]. cbn [fst snd]. intros Hd Hn. unfold addDep.
  rewrite !bool_decide_eq_false_2 by done. cbn [negb snd].
  rewrite subs_of_addSub, !subs_of_emit, decide_True by done.
  destruct (bool_decide_reflect (id t ∈ subs_of g d)); [done|]. set_solver.
Qed.

Lemma subs_track_new (ds : list nat) (d : nat) (st : St) :
  d ∈ ds -> d ∉ depIds st.1 -> d ∉ newDepIds st.1 ->
  id st.1 ∈ subs_of (track ds st).2 d.
Proof.
  intros Hin Hd Hn. induction ds as [|x ds IH] using rev_ind.
  - by apply elem_of_nil in Hin.
  - rewrite track_snoc.
    destruct (newDepIds_track ds st) as [Hnt Hid].
    destruct (deps_track ds st) as [_ Hdi].
    destruct (decide (d ∈ ds)) as [Hds|Hds].
    + apply subs_addDep_mono. by apply IH.
    + apply elem_of_app in Hin as [?|Hx]; [done|]. apply list_elem_of_singleton in Hx as ->.
      rewrite <- Hid. apply subs_addDep_new.
      * by rewrite Hdi.
      * rewrite Hnt. set_solver.
Qed.

(** X12. A reader inherits the dependencies of a computed watcher.
    [depend] hands every subject in the watcher's [deps] to the active
    watcher: afterwards the target's working id set is what it was plus all
    of [deps]; its id, [deps] and [depIds] are unchanged; it is subscribed
    to each of those subjects that was neither a dependency of it before
    nor already noted in this evaluation; nobody is unsubscribed; the
    watcher whose [depend] was called is not changed and nothing is
    evaluated. Without an active watcher [depend] does nothing. *)
Theorem depend_inherits (this t : Watcher) (g : World) :
  (exists t' g', depend this (Some t) g = (Some t', g')
     /\ newDepIds t' = list_to_set (deps this) ∪ newDepIds t
     /\ id t' = id t /\ deps t' = deps t /\ depIds t' = depIds t
     /\ (forall d, d ∈ deps this -> d ∉ depIds t -> d ∉ newDepIds t -> id t ∈ subs_of g' d)
     /\ (forall d x, x ∈ subs_of g d -> x ∈ subs_of g' d)
     /\ calls g' = calls g)
  /\ depend this None g = (None, g).
Proof.
  split; [|done]. unfold depend. eexists _, _. split; [reflexivity|].
  destruct (newDepIds_track (rev (deps this)) (t, g)) as [Hn Hid].
  destruct (deps_track (rev (deps this)) (t, g)) as [Hd Hdi].
  split_and!; try done.
  - rewrite Hn. apply set_eq. intros d. rewrite !elem_of_union, !elem_of_list_to_set.
    by rewrite elem_of_rev.
  - intros d Hin H1 H2. apply (subs_track_new (rev (deps this)) d (t, g)); [|done|done].
    by apply elem_of_rev.
  - intros d x Hx. by apply (subs_track_mono (rev (deps this)) d x (t, g)).
  - by rewrite calls_track.
Qed.

(** X13. Memoization of a computed property. Reading through
    [computedGetter] a watcher that is not dirty gives the stored value
    without calling the read function. Reading a dirty one whose evaluation
    returns [v] calls the read function once, stores [v] and clears the
    flag, so that a second read right after it gives [v] again without any
    call. When the evaluation throws, the error comes out, the active
    watcher is not touched and the watcher stays dirty, so the next read
    evaluates again. A key without a watcher reads as [undefined] and
    changes nothing. *)
Theorem computed_memoizes (fuel : nat) (w : Watcher) (target : option Watcher) (g : World) :
  (dirty w = false ->
     exists t' g', computedGetter fuel (Some w) target g = CReturn (value w) (Some w) t' g'
                   /\ calls g' = calls g)
  /\ (dirty w = true -> forall v st1, get fuel (w, g) = Return v st1 ->
        exists w' t' g',
          computedGetter fuel (Some w) target g = CReturn v (Some w') t' g'
          /\ value w' = v /\ dirty w' = false
          /\ calls g' = EvGetter (id w) :: calls g
          /\ (forall target2, exists t2 g2,
                computedGetter fuel (Some w') target2 g' = CReturn v (Some w') t2 g2
                /\ calls g2 = calls g'))
  /\ (dirty w = true -> forall e st1, get fuel (w, g) = Throw e st1 ->
        computedGetter fuel (Some w) target g = CThrow e st1.1 target st1.2
        /\ dirty st1.1 = true)
  /\ computedGetter fuel None target g = CReturn VUndefined None target g.
Proof.
  assert (Hclean : forall w0 tg g0, dirty w0 = false ->
            exists t' g', computedGetter fuel (Some w0) tg g0 = CReturn (value w0) (Some w0) t' g'
                          /\ calls g' = calls g0).
  { intros w0 tg g0 Hd. unfold computedGetter. rewrite Hd. cbn [fst snd].
    destruct tg as [t|].
    - unfold depend. eexists _, _. split; [reflexivity|]. by rewrite calls_track.
    - by eexists _, _. }
  split_and!; [by apply Hclean| | |done].
  - intros Hd v st1 Hget. unfold computedGetter, evaluate. rewrite Hd, Hget. cbn [bind fst snd].
    pose proof (calls_get fuel (w, g) st1 (f_equal final Hget)) as Hc. cbn [fst snd] in Hc.
    assert (Hrest : forall g', calls g' = EvGetter (id w) :: calls g ->
              forall target2, exists t2 g2,
                computedGetter fuel (Some (set_dirty false (set_value v st1.1))) target2 g'
                = CReturn v (Some (set_dirty false (set_value v st1.1))) t2 g2
                /\ calls g2 = calls g').
    { intros g' _ target2. by apply (Hclean (set_dirty false (set_value v st1.1))). }
    destruct target as [t|].
    + unfold depend. eexists _, _, _. split; [reflexivity|].
      assert (Hc' : calls (track (rev (deps (set_dirty false (set_value v st1.1))))
                             (t, st1.2)).2 = EvGetter (id w) :: calls g)
        by (by rewrite calls_track).
      split_and!; [done|done|exact Hc'|by apply Hrest].
    + eexists _, _, _. split; [reflexivity|]. split_and!; [done|done|exact Hc|by apply Hrest].
  - intros Hd e st1 Hget. unfold computedGetter, evaluate. rewrite Hd, Hget. cbn [bind].
    split; [done|].
    destruct (frame_fields _ _ (frame_get fuel (w, g) st1 (f_equal final Hget)))
      as (_ & _ & _ & Hdi & _). by rewrite Hdi.
Qed.

Lemma computed_memoizes_witness :
  exists w' t' g',
    computedGetter 0 (Some computed_watcher.1) (Some reading_watcher) computed_watcher.2
    = CReturn (VNum 3) (Some w') t' g' /\ dirty w' = false.
Proof.
  assert (Hd : dirty computed_watcher.1 = true) by (vm_compute; reflexivity).
  assert (Hget : get 0 (computed_watcher.1, computed_watcher.2)
                 = Return (VNum 3)
                     (state_of computed_watcher (get 0 (computed_watcher.1, computed_watcher.2))))
    by (vm_compute; reflexivity).
  destruct (proj1 (proj2 (computed_memoizes 0 computed_watcher.1 (Some reading_watcher)
                            computed_watcher.2)) Hd _ _ Hget)
    as (w' & t' & g' & H1 & _ & H2 & _).
  exists w', t', g'. split; [exact H1|exact H2].
Defined.

(** ** [$watch] *)

Lemma construction_fields (parsePath : string -> option Getter) (fuel vm_ : nat)
      (e : ExpOrFn) (cb_ : Callback) (options : option Options) (g : World) (st' : St) :
  final (new_Watcher parsePath fuel vm_ e cb_ options g) = Some st' ->
  id st'.1 = S (uid g) /\ vm st'.1 = vm_ /\ active st'.1 = true
  /\ user st'.1 = opt_user (options_or_default options)
  /\ deep st'.1 = opt_deep (options_or_default options)
  /\ lazy st'.1 = opt_lazy (options_or_default options)
  /\ sync st'.1 = opt_sync (options_or_default options).
Proof.
  rewrite new_Watcher_unfold. destruct (opt_lazy (options_or_default options)) eqn:El.
  - cbn [final]. same_state. cbn [fst]. by split_and!.
  - intros (st1 & Hf & Hw & Ht)%final_construction.
    destruct (frame_fields _ _ (frame_get fuel _ st1 Hf))
      as (Hvm & Hid & _ & _ & Hac & Hdp & Hus & Hlz & Hsy & _).
    cbn [fst snd] in *.
    assert (Hsame : id st'.1 = id st1.1 /\ vm st'.1 = vm st1.1 /\ active st'.1 = active st1.1
                    /\ user st'.1 = user st1.1 /\ deep st'.1 = deep st1.1
                    /\ lazy st'.1 = lazy st1.1 /\ sync st'.1 = sync st1.1).
    { destruct Ht as [->|(v & _ & ->)]; by split_and!. }
    destruct Hsame as (-> & -> & -> & -> & -> & -> & ->).
    rewrite Hid, Hvm, Hac, Hdp, Hus, Hlz, Hsy. by split_and!.
Qed.

Lemma Vue_watch_unfold (parsePath : string -> option Getter) (fuel vm_ : nat) (e : ExpOrFn)
      (cb_ : Callback) (options : option WatchOptions) (g : World) :
  Vue_watch parsePath fuel vm_ e cb_ options g =
    do (_, st) <- new_Watcher parsePath fuel vm_ e cb_ (Some (watch_options options)) g;
    if watch_immediate options then
      match cb_ (heap st.2) vm_ (value st.1) VUndefined with
      | None => Return tt (st.1, emit (EvCallback (id st.1) (value st.1) VUndefined) st.2)
      | Some err => Throw err (st.1, emit (EvCallback (id st.1) (value st.1) VUndefined) st.2)
      end
    else Return tt st.
Proof. unfold Vue_watch. by destruct options as [[o im]|]. Qed.

(** X14. What [$watch] adds to the constructor. The watcher it creates
    always carries the user flag, whatever the options say, and has the
    fresh id [uid + 1]. Without [immediate], [$watch] is just that
    construction. With [immediate], once construction has returned, the
    callback is called one time with the first value and [undefined]; this
    call is not wrapped: when the callback throws, the error leaves
    [$watch] and nothing is reported, although the watcher is a user
    watcher. The returned [unwatchFn] deactivates the watcher, after which
    [run] does nothing. *)
Theorem watch_adds (parsePath : string -> option Getter) (fuel vm_ : nat) (e : ExpOrFn)
        (cb_ : Callback) (options : option WatchOptions) (g : World) (st' : St) :
  final (Vue_watch parsePath fuel vm_ e cb_ options g) = Some st' ->
  user st'.1 = true /\ id st'.1 = S (uid g)
  /\ (watch_immediate options = false ->
        Vue_watch parsePath fuel vm_ e cb_ options g
        = new_Watcher parsePath fuel vm_ e cb_ (Some (watch_options options)) g)
  /\ (watch_immediate options = true ->
        forall st1, new_Watcher parsePath fuel vm_ e cb_ (Some (watch_options options)) g
                    = Return tt st1 ->
          calls st'.2 = EvCallback (id st1.1) (value st1.1) VUndefined :: calls st1.2
          /\ events is_report st'.2 = events is_report st1.2
          /\ (forall err, cb_ (heap st1.2) vm_ (value st1.1) VUndefined = Some err ->
                Vue_watch parsePath fuel vm_ e cb_ options g = Throw err st'))
  /\ run fuel (unwatchFn st') = Return tt (unwatchFn st').
Proof.
  rewrite Vue_watch_unfold. intros Hfin.
  assert (Hnew : exists st1, final (new_Watcher parsePath fuel vm_ e cb_
                                      (Some (watch_options options)) g) = Some st1
                             /\ id st'.1 = id st1.1 /\ user st'.1 = user st1.1).
  { destruct (new_Watcher parsePath fuel vm_ e cb_ (Some (watch_options options)) g)
      as [[] st1|err st1|]; cbn [bind final] in *; [| |done].
    - exists st1. split; [done|]. destruct (watch_immediate options).
      + destruct (cb_ _ _ _ _); cbn [final] in Hfin; revert Hfin; by same_state.
      + revert Hfin. by same_state.
    - exists st1. split; [done|]. revert Hfin. by same_state. }
  destruct Hnew as (st0 & Hf0 & -> & ->).
  destruct (construction_fields _ _ _ _ _ _ _ _ Hf0) as (Hid & _ & _ & Hus & _).
  split_and!.
  - rewrite Hus. by destruct options.
  - done.
  - intros ->. by destruct (new_Watcher _ _ _ _ _ _ _) as [[] ?|? ?|].
  - intros Him st1 Hnew. rewrite Hnew, Him in Hfin |- *. cbn [bind] in *.
    destruct (cb_ (heap st1.2) vm_ (value st1.1) VUndefined) as [err|];
      cbn [final] in Hfin; revert Hfin; same_state; cbn [fst snd];
      (split_and!; [done|done|]); [by intros ? [= <-]|done].
  - apply run_inactive. unfold unwatchFn, teardown. destruct st' as [t g']. cbn [fst].
    by destruct (active t) eqn:Ha.
Qed.

Lemma watch_adds_witness :
  user (state_of (plain_watcher, world0 dev_config)
          (Vue_watch no_paths 0 1 (Func "f" (const_getter [1] (VNum 1))) quiet_cb
                     None (world0 dev_config))).1 = true.
Proof.
  assert (Hf : final (Vue_watch no_paths 0 1 (Func "f" (const_getter [1] (VNum 1))) quiet_cb
                                None (world0 dev_config))
               = Some (state_of (plain_watcher, world0 dev_config)
                         (Vue_watch no_paths 0 1 (Func "f" (const_getter [1] (VNum 1))) quiet_cb
                                    None (world0 dev_config))))
    by (vm_compute; reflexivity).
  exact (proj1 (watch_adds _ _ _ _ _ _ _ _ Hf)).
Defined.

(** ** Virtual nodes *)

(** X15. [cloneVNode] is a shallow copy that forgets part of the node.
    The clone has the same tag, data, child array, text, DOM node, context,
    component options, namespace, static flag and key (the key of the node,
    not the one in its data) and is marked as cloned; everything else is
    what the constructor sets, so the comment flag, the once flag, the raw
    flag, the component instance, the parent and the functional context
    of the original are not carried over: the clone of a comment node is
    not a comment. Cloning a clone gives the same node again. *)
Theorem cloneVNode_shallow (v : VNodes.VNode) :
  (VNodes.tag (VNodes.cloneVNode v) = VNodes.tag v
   /\ VNodes.data (VNodes.cloneVNode v) = VNodes.data v
   /\ VNodes.children (VNodes.cloneVNode v) = VNodes.children v
   /\ VNodes.text (VNodes.cloneVNode v) = VNodes.text v
   /\ VNodes.elm (VNodes.cloneVNode v) = VNodes.elm v
   /\ VNodes.context (VNodes.cloneVNode v) = VNodes.context v
   /\ VNodes.componentOptions (VNodes.cloneVNode v) = VNodes.componentOptions v
   /\ VNodes.ns (VNodes.cloneVNode v) = VNodes.ns v
   /\ VNodes.isStatic (VNodes.cloneVNode v) = VNodes.isStatic v
   /\ VNodes.key (VNodes.cloneVNode v) = VNodes.key v)
  /\ VNodes.isCloned (VNodes.cloneVNode v) = true
  /\ (VNodes.isComment (VNodes.cloneVNode v) = false
      /\ VNodes.isOnce (VNodes.cloneVNode v) = false
      /\ VNodes.raw (VNodes.cloneVNode v) = false
      /\ VNodes.isRootInsert (VNodes.cloneVNode v) = true
      /\ VNodes.componentInstance (VNodes.cloneVNode v) = None
      /\ VNodes.parent (VNodes.cloneVNode v) = None
      /\ VNodes.functionalContext (VNodes.cloneVNode v) = None)
  /\ VNodes.isComment (VNodes.cloneVNode VNodes.createEmptyVNode) = false
  /\ VNodes.cloneVNode (VNodes.cloneVNode v) = VNodes.cloneVNode v.
Proof. destruct v. by split_and!. Qed.

Lemma cloneVNodes_prefix (vs : list VNodes.VNode) (k : nat) :
  k <= length vs ->
  foldl (fun res i =>
           match vs !! i with
           | Some v => <[i := Some (VNodes.cloneVNode v)]> res
           | None => res
           end)
        (replicate (length vs) None) (seq 0 k)
  = ((fun v => Some (VNodes.cloneVNode v)) <$> take k vs) ++ replicate (length vs - k) None.
Proof.
  induction k as [|k IH]; intros Hk.
  - simpl. by rewrite Nat.sub_0_r.
  - rewrite seq_S, foldl_app, IH by lia. simpl.
    destruct (lookup_lt_is_Some_2 vs k) as [v Hv]; [lia|]. rewrite Hv.
    rewrite (take_S_r vs k v Hv), fmap_app. simpl.
    rewrite insert_app_r_alt by (rewrite length_fmap, length_take; lia).
    rewrite length_fmap, length_take, Nat.min_l by lia. rewrite Nat.sub_diag.
    replace (length vs - k) with (S (length vs - S k)) by lia. simpl.
    by rewrite <- app_assoc.
Qed.

(** X16. [cloneVNodes] fills every slot. The array it builds with
    [new Array(len)] and the indexed loop has no hole left: it is the list
    of the clones of the given nodes, in the same order and of the same
    length. *)
Theorem cloneVNodes_map (vs : list VNodes.VNode) :
  VNodes.cloneVNodes vs = (fun v => Some (VNodes.cloneVNode v)) <$> vs
  /\ length (VNodes.cloneVNodes vs) = length vs.
Proof.
  assert (H : VNodes.cloneVNodes vs = (fun v => Some (VNodes.cloneVNode v)) <$> vs).
  { unfold VNodes.cloneVNodes. rewrite cloneVNodes_prefix by done.
    by rewrite firstn_all, Nat.sub_diag, app_nil_r. }
  split; [done|]. by rewrite H, length_fmap.
Qed.

(** ** Events *)

Lemma cbs_of_on1 (e e' : string) (fn : Events.Handler) (vm : Events.Vm) :
  Events.cbs_of (Events.on1 e fn vm) e' =
    if decide (e = e') then Some (handlers vm e ++ [fn]) else Events.cbs_of vm e'.
Proof.
  unfold Events.cbs_of at 1, Events.on1; simpl. rewrite lookup_insert.
  destruct (decide (e = e')) as [<-|]; [|done].
  unfold handlers. by destruct (Events.cbs_of vm e).
Qed.

Lemma handlers_on1 (e e' : string) (fn : Events.Handler) (vm : Events.Vm) :
  handlers (Events.on1 e fn vm) e' =
    if decide (e = e') then handlers vm e ++ [fn] else handlers vm e'.
Proof. unfold handlers at 1. rewrite cbs_of_on1. by destruct (decide (e = e')). Qed.

Lemma on1_rest (e : string) (fn : Events.Handler) (vm : Events.Vm) :
  Events.invoked (Events.on1 e fn vm) = Events.invoked vm
  /\ Events.closures (Events.on1 e fn vm) = Events.closures vm
  /\ Events._hasHookEvent (Events.on1 e fn vm) = Events.hookRE_test e || Events._hasHookEvent vm.
Proof. unfold Events.on1; simpl. split_and!; [done|done|]. by destruct (Events.hookRE_test e). Qed.

Lemma handlers_on_many (es : list string) (fn : Events.Handler) (vm : Events.Vm) (e : string) :
  (e ∉ es -> handlers (Events.on (Events.Many es) fn vm) e = handlers vm e)
  /\ (e ∈ es -> fn ∈ handlers (Events.on (Events.Many es) fn vm) e).
Proof.
  simpl. induction es as [|x es IH] using rev_ind; [split; [done|by intros ?%elem_of_nil]|].
  rewrite foldl_snoc, handlers_on1. destruct IH as [IH1 IH2]. split.
  - intros Hn. rewrite decide_False by set_solver. apply IH1. set_solver.
  - intros Hin. destruct (decide (x = e)) as [->|Hne]; [set_solver|].
    apply IH2. set_solver.
Qed.

Lemma run_handlers_plain (beh : Events.Behaviour) (fs : list nat) (args : list JSValue)
      (vm : Events.Vm) :
  (forall f, f ∈ fs -> beh f args = None) ->
  Events.run_handlers beh (Events.Fn <$> fs) args vm
  = inl (Events.mkVm (Events._events vm) (Events._hasHookEvent vm) (Events.closures vm)
                     (calls_of fs args ++ Events.invoked vm) (Events.tips vm)).
Proof.
  revert vm. induction fs as [|f fs IH]; intros vm Hq; simpl.
  - by destruct vm.
  - rewrite (Hq f) by by left. rewrite IH by (intros; apply Hq; by right). simpl.
    unfold calls_of. simpl. by rewrite <- app_assoc.
Qed.

Lemma run_handlers_app (beh : Events.Behaviour) (l1 l2 : list Events.Handler)
      (args : list JSValue) (vm : Events.Vm) :
  Events.run_handlers beh (l1 ++ l2) args vm =
    match Events.run_handlers beh l1 args vm with
    | inl vm' => Events.run_handlers beh l2 args vm'
    | inr x => inr x
    end.
Proof.
  revert vm. induction l1 as [|cb l1 IH]; intros vm; simpl; [done|].
  destruct (Events.invoke beh cb args vm); [apply IH|done].
Qed.

(** The component [$emit] runs the handlers on: the given one, with a tip
    more or not. *)
Lemma emit_unfold (production : bool) (toLowerCase : string -> string) (name : string)
      (hyphenate : string -> string) (beh : Events.Behaviour) (event : string)
      (args : list JSValue) (vm : Events.Vm) :
  exists ts,
    Events.emit production toLowerCase name hyphenate beh event args vm =
      match Events.cbs_of vm event with
      | Some cbs => Events.run_handlers beh cbs args
                      (Events.mkVm (Events._events vm) (Events._hasHookEvent vm)
                                   (Events.closures vm) (Events.invoked vm) ts)
      | None => inl (Events.mkVm (Events._events vm) (Events._hasHookEvent vm)
                                 (Events.closures vm) (Events.invoked vm) ts)
      end.
Proof.
  unfold Events.emit. destruct (negb production).
  - destruct (negb _ && _); [by eexists|]. exists (Events.tips vm). by destruct vm.
  - exists (Events.tips vm). by destruct vm.
Qed.

(** X17. Registration order is call order. [$on] appends the function to
    the array of the event (creating it when the entry is missing or
    [null]) and leaves other events alone, so a function registered twice is
    there twice; with an array of events it ends up registered under each of
    them; it sets [_hasHookEvent] for an event that starts with "hook:" and
    never clears it. [$emit] on an event whose handlers are functions that
    return calls them once each, in the order of registration, with the
    emitted arguments, and leaves the registrations as they were. *)
Theorem on_then_emit (production : bool) (toLowerCase : string -> string) (name : string)
        (hyphenate : string -> string) (beh : Events.Behaviour) (vm : Events.Vm) :
  (forall e fn e',
     handlers (Events.on (Events.One e) fn vm) e'
     = if decide (e = e') then handlers vm e ++ [fn] else handlers vm e')
  /\ (forall es fn e, e ∈ es -> fn ∈ handlers (Events.on (Events.Many es) fn vm) e)
  /\ (forall e fn,
        Events._hasHookEvent (Events.on (Events.One e) fn vm)
        = Events.hookRE_test e || Events._hasHookEvent vm)
  /\ (forall e fs args,
        Events.cbs_of vm e = Some (Events.Fn <$> fs) ->
        (forall f, f ∈ fs -> beh f args = None) ->
        exists vm', Events.emit production toLowerCase name hyphenate beh e args vm = inl vm'
                    /\ Events.invoked vm' = calls_of fs args ++ Events.invoked vm
                    /\ Events._events vm' = Events._events vm).
Proof.
  split_and!.
  - intros e fn e'. apply handlers_on1.
  - intros es fn e. apply handlers_on_many.
  - intros e fn. apply on1_rest.
  - intros e fs args Hc Hq.
    destruct (emit_unfold production toLowerCase name hyphenate beh e args vm) as [ts ->].
    rewrite Hc, run_handlers_plain by done. by eexists.
Qed.

Lemma on_then_emit_witness :
  exists vm', Events.emit true as_is "" as_is quiet_behaviour "tick" [VNum 1]
                (Events.on (Events.One "tick") (Events.Fn 2)
                   (Events.on (Events.One "tick") (Events.Fn 1) Events.vm0)) = inl vm'
              /\ Events.invoked vm' = [(2, [VNum 1]); (1, [VNum 1])].
Proof.
  destruct (on_then_emit true as_is "" as_is quiet_behaviour
              (Events.on (Events.One "tick") (Events.Fn 2)
                 (Events.on (Events.One "tick") (Events.Fn 1) Events.vm0)))
    as (_ & _ & _ & H).
  destruct (H "tick" [1; 2] [VNum 1] eq_refl (fun _ _ => eq_refl)) as (vm' & H1 & H2 & _).
  exists vm'. split; [exact H1|]. rewrite H2. reflexivity.
Defined.

Lemma splice_first_skip (fn : option Events.Handler) (l1 : list Events.Handler)
      (cb : Events.Handler) (l2 : list Events.Handler) :
  (forall x, x ∈ l1 -> Events.matches x fn = false) -> Events.matches cb fn = true ->
  Events.splice_first fn (l1 ++ cb :: l2) = l1 ++ l2.
Proof.
  intros Hn Hm. induction l1 as [|x l1 IH]; simpl; [by rewrite Hm|].
  rewrite (Hn x) by by left. rewrite IH; [done|]. intros y Hy. apply Hn. by right.
Qed.

Lemma splice_first_none (fn : option Events.Handler) (l : list Events.Handler) :
  (forall x, x ∈ l -> Events.matches x fn = false) -> Events.splice_first fn l = l.
Proof.
  intros Hn. induction l as [|x l IH]; simpl; [done|].
  rewrite (Hn x) by by left. rewrite IH; [done|]. intros y Hy. apply Hn. by right.
Qed.

Lemma elem_of_rev_handlers (l : list Events.Handler) (x : Events.Handler) : x ∈ rev l <-> x ∈ l.
Proof. rewrite !list_elem_of_In. symmetry. apply in_rev. Qed.

Lemma splice_last_split (fn : option Events.Handler) (l1 : list Events.Handler)
      (cb : Events.Handler) (l2 : list Events.Handler) :
  Events.matches cb fn = true -> (forall x, x ∈ l2 -> Events.matches x fn = false) ->
  Events.splice_last fn (l1 ++ cb :: l2) = l1 ++ l2.
Proof.
  intros Hm Hn. unfold Events.splice_last. rewrite rev_app_distr. simpl.
  rewrite <- app_assoc. simpl. rewrite splice_first_skip.
  - by rewrite rev_app_distr, !rev_involutive.
  - intros x Hx. apply Hn. by apply elem_of_rev_handlers.
  - done.
Qed.

Lemma splice_last_none (fn : option Events.Handler) (l : list Events.Handler) :
  (forall x, x ∈ l -> Events.matches x fn = false) -> Events.splice_last fn l = l.
Proof.
  intros Hn. unfold Events.splice_last. rewrite splice_first_none.
  - apply rev_involutive.
  - intros x Hx. apply Hn. by apply elem_of_rev_handlers.
Qed.

Lemma handlers_off1 (e e' : string) (fn : option Events.Handler) (vm : Events.Vm) :
  handlers (Events.off1 e (Some fn) vm) e' =
    if decide (e = e') then Events.splice_last fn (handlers vm e) else handlers vm e'.
Proof.
  unfold Events.off1. destruct (Events.cbs_of vm e) as [cbs|] eqn:Ec.
  - unfold handlers at 1, Events.cbs_of at 1; simpl. rewrite lookup_insert.
    destruct (decide (e = e')) as [<-|]; [|done]. unfold handlers. by rewrite Ec.
  - destruct (decide (e = e')) as [<-|]; [|done]. unfold handlers. by rewrite Ec.
Qed.

Lemma handlers_off1_event (e e' : string) (vm : Events.Vm) :
  handlers (Events.off1 e None vm) e' = if decide (e = e') then [] else handlers vm e'.
Proof.
  unfold Events.off1. destruct (Events.cbs_of vm e) as [cbs|] eqn:Ec.
  - unfold handlers at 1, Events.cbs_of at 1; simpl. rewrite lookup_insert.
    by destruct (decide (e = e')) as [<-|].
  - destruct (decide (e = e')) as [<-|]; [|done]. unfold handlers. by rewrite Ec.
Qed.

Lemma off1_rest (e : string) (fn : option (option Events.Handler)) (vm : Events.Vm) :
  Events.invoked (Events.off1 e fn vm) = Events.invoked vm
  /\ Events.closures (Events.off1 e fn vm) = Events.closures vm
  /\ Events._hasHookEvent (Events.off1 e fn vm) = Events._hasHookEvent vm
  /\ Events.tips (Events.off1 e fn vm) = Events.tips vm.
Proof.
  unfold Events.off1. destruct (Events.cbs_of vm e); [|done]. by destruct fn.
Qed.

Lemma off_rest (args : Events.OffArgs) (vm : Events.Vm) :
  Events.invoked (Events.off args vm) = Events.invoked vm
  /\ Events.closures (Events.off args vm) = Events.closures vm
  /\ Events._hasHookEvent (Events.off args vm) = Events._hasHookEvent vm
  /\ Events.tips (Events.off args vm) = Events.tips vm.
Proof.
  assert (Hfold : forall fn es,
            Events.invoked (foldl (fun vm e => Events.off1 e fn vm) vm es) = Events.invoked vm
            /\ Events.closures (foldl (fun vm e => Events.off1 e fn vm) vm es) = Events.closures vm
            /\ Events._hasHookEvent (foldl (fun vm e => Events.off1 e fn vm) vm es)
               = Events._hasHookEvent vm
            /\ Events.tips (foldl (fun vm e => Events.off1 e fn vm) vm es) = Events.tips vm).
  { intros fn es. induction es as [|e es IH] using rev_ind; [done|].
    rewrite foldl_snoc. destruct (off1_rest e fn (foldl (fun vm e => Events.off1 e fn vm) vm es))
      as (-> & -> & -> & ->). exact IH. }
  destruct args as [|[e|es]|[e|es] fn]; simpl; try done; try apply off1_rest; apply Hfold.
Qed.




(** X19. [$off(event, fn)] takes off one registration. Of the handlers of
    the event that are [fn] itself or a [$once] closure around [fn], the
    one registered last is removed and every other handler stays, in order;
    when none matches nothing changes. So a function registered twice is
    still registered once after one [$off], and a pending [$once] is
    cancelled by passing the original function. Other events are not
    touched, and the entry of the event stays an array even when it gets
    empty. *)
Theorem off_removes_last (vm : Events.Vm) (e : string) (fn : Events.Handler) :
  (forall l1 cb l2,
     handlers vm e = l1 ++ cb :: l2 ->
     Events.matches cb (Some fn) = true ->
     (forall x, x ∈ l2 -> Events.matches x (Some fn) = false) ->
     handlers (Events.off (Events.OffHandler (Events.One e) (Some fn)) vm) e = l1 ++ l2)
  /\ ((forall x, x ∈ handlers vm e -> Events.matches x (Some fn) = false) ->
        handlers (Events.off (Events.OffHandler (Events.One e) (Some fn)) vm) e = handlers vm e)
  /\ (forall e', e' ≠ e ->
        handlers (Events.off (Events.OffHandler (Events.One e) (Some fn)) vm) e' = handlers vm e')
  /\ (forall f : nat,
        handlers (Events.off (Events.OffHandler (Events.One e) (Some (Events.Fn f)))
                    (Events.on (Events.One e) (Events.Fn f)
                       (Events.on (Events.One e) (Events.Fn f) vm))) e
        = handlers vm e ++ [Events.Fn f])
  /\ (forall f : nat,
        handlers (Events.off (Events.OffHandler (Events.One e) (Some (Events.Fn f)))
                    (Events.once e (Events.Fn f) vm)) e
        = handlers vm e)
  /\ (forall cbs, Events.cbs_of vm e = Some cbs ->
        exists cbs', Events.cbs_of (Events.off (Events.OffHandler (Events.One e) (Some fn)) vm) e
                     = Some cbs').
Proof.
  cbn [Events.off]. split_and!.
  - intros l1 cb l2 Hh Hm Hn. rewrite handlers_off1, decide_True, Hh by done.
    by apply splice_last_split.
  - intros Hn. rewrite handlers_off1, decide_True by done. by apply splice_last_none.
  - intros e' Hne. by rewrite handlers_off1, decide_False.
  - intros f. cbn [Events.on]. rewrite handlers_off1, decide_True by done.
    rewrite !handlers_on1, !decide_True by done.
    rewrite (splice_last_split (Some (Events.Fn f)) (handlers vm e ++ [Events.Fn f])
               (Events.Fn f) []).
    + apply app_nil_r.
    + unfold Events.matches, Events.same. by rewrite Nat.eqb_refl.
    + intros x Hx. by apply elem_of_nil in Hx.
  - intros f. unfold Events.once. cbn [Events.on]. rewrite handlers_off1, decide_True by done.
    rewrite handlers_on1, decide_True by done.
    rewrite (splice_last_split (Some (Events.Fn f)) _ (Events.On (Events.closures vm) e (Events.Fn f)) []).
    + rewrite app_nil_r. unfold handlers, Events.cbs_of. by destruct vm.
    + unfold Events.matches, Events.same. by rewrite Nat.eqb_refl, orb_true_r.
    + intros x Hx. by apply elem_of_nil in Hx.
  - intros cbs Hc. unfold Events.off1. rewrite Hc. unfold Events.cbs_of; simpl.
    rewrite lookup_insert_eq. by eexists.
Qed.

Lemma off_removes_last_witness :
  handlers (Events.off (Events.OffHandler (Events.One "tick") (Some (Events.Fn 1))) ticking) "tick"
  = [] ++ [Events.Fn 2].
Proof.
  assert (Hh : handlers ticking "tick" = [] ++ Events.Fn 1 :: [Events.Fn 2])
    by (vm_compute; reflexivity).
  apply (proj1 (off_removes_last ticking "tick" (Events.Fn 1)) [] (Events.Fn 1) [Events.Fn 2] Hh).
  - reflexivity.
  - intros x Hx. apply list_elem_of_singleton in Hx as ->. reflexivity.
Defined.

(** X20. [$off()] and [$off(event)]. Without arguments every registration
    of every event is gone; with only an event name the handlers of that
    event are gone and the other events keep theirs. After either, [$emit] of
    the event calls nothing. On an event whose entry is missing or [null],
    [$off] with or without a function changes nothing at all. An entry that
    is an array is never missing for [$off], even when it is empty:
    [$off(event)] puts [null] in its place, so an emptied array does not
    stay as it is, and [$off(event, fn)] leaves an empty array. No form of
    [$off] clears [_hasHookEvent]. *)
Theorem off_clears (production : bool) (toLowerCase : string -> string) (name : string)
        (hyphenate : string -> string) (beh : Events.Behaviour) (vm : Events.Vm) (e : string)
        (args : list JSValue) :
  (forall e', handlers (Events.off Events.OffAll vm) e' = [])
  /\ handlers (Events.off (Events.OffEvent (Events.One e)) vm) e = []
  /\ (forall e', e' ≠ e ->
        handlers (Events.off (Events.OffEvent (Events.One e)) vm) e' = handlers vm e')
  /\ (forall vm', Events.cbs_of vm' e = None \/ Events.cbs_of vm' e = Some [] ->
        exists vm'', Events.emit production toLowerCase name hyphenate beh e args vm' = inl vm''
                     /\ Events.invoked vm'' = Events.invoked vm')
  /\ Events.cbs_of (Events.off Events.OffAll vm) e = None
  /\ Events.cbs_of (Events.off (Events.OffEvent (Events.One e)) vm) e = None
  /\ (Events.cbs_of vm e = None ->
        forall fn, Events.off (Events.OffEvent (Events.One e)) vm = vm
                   /\ Events.off (Events.OffHandler (Events.One e) fn) vm = vm)
  /\ (forall cbs, Events.cbs_of vm e = Some cbs ->
        Events._events (Events.off (Events.OffEvent (Events.One e)) vm) !! e = Some None
        /\ Events.off (Events.OffEvent (Events.One e)) vm ≠ vm)
  /\ (Events.cbs_of vm e = Some [] ->
        forall fn, Events.cbs_of (Events.off (Events.OffHandler (Events.One e) fn) vm) e
                   = Some [])
  /\ (forall a, Events._hasHookEvent (Events.off a vm) = Events._hasHookEvent vm).
Proof.
  split_and!.
  - intros e'. unfold handlers, Events.cbs_of; simpl. by rewrite lookup_empty.
  - cbn [Events.off]. by rewrite handlers_off1_event, decide_True.
  - intros e' Hne. cbn [Events.off]. by rewrite handlers_off1_event, decide_False.
  - intros vm' Hc.
    destruct (emit_unfold production toLowerCase name hyphenate beh e args vm') as [ts ->].
    destruct Hc as [-> | ->]; by eexists.
  - unfold Events.cbs_of; simpl. by rewrite lookup_empty.
  - cbn [Events.off]. unfold Events.off1. destruct (Events.cbs_of vm e) eqn:Ec; [|done].
    unfold Events.cbs_of; simpl. by rewrite lookup_insert_eq.
  - intros Hc fn. cbn [Events.off]. unfold Events.off1. by rewrite Hc.
  - intros cbs Hc. cbn [Events.off]. unfold Events.off1. rewrite Hc.
    assert (Hn : Events._events (Events.set_events (<[e:=None]> (Events._events vm)) vm) !! e
                 = Some None) by (simpl; by rewrite lookup_insert_eq).
    split; [exact Hn|]. intros Heq. rewrite Heq in Hn.
    unfold Events.cbs_of in Hc. rewrite Hn in Hc. discriminate Hc.
  - intros Hc fn. cbn [Events.off]. unfold Events.off1. rewrite Hc.
    unfold Events.cbs_of. simpl. rewrite lookup_insert_eq. by destruct fn.
  - intros a. apply off_rest.
Qed.

Lemma off_clears_witness :
  Events.cbs_of emptied "tick" = Some []
  /\ Events._events (Events.off (Events.OffEvent (Events.One "tick")) emptied) !! "tick"
     = Some None
  /\ Events.off (Events.OffEvent (Events.One "tick")) emptied ≠ emptied.
Proof.
  assert (Hc : Events.cbs_of emptied "tick" = Some []) by (vm_compute; reflexivity).
  destruct (off_clears true as_is "" as_is quiet_behaviour emptied "tick" [])
    as (_ & _ & _ & _ & _ & _ & _ & H & _).
  exact (conj Hc (H [] Hc)).
Defined.



(** X22. A throwing handler ends the [$emit]. The handlers registered
    before the one that throws have been called, in order; the error comes
    out of [$emit]; the handlers registered after it are not called. *)
Theorem emit_stops_at_throw (production : bool) (toLowerCase : string -> string) (name : string)
        (hyphenate : string -> string) (beh : Events.Behaviour) (vm : Events.Vm) (e : string)
        (fs1 : list nat) (f : nat) (fs2 : list nat) (args : list JSValue) (err : error) :
  Events.cbs_of vm e = Some (Events.Fn <$> (fs1 ++ f :: fs2)) ->
  (forall g, g ∈ fs1 -> beh g args = None) ->
  beh f args = Some err ->
  exists vm', Events.emit production toLowerCase name hyphenate beh e args vm = inr (err, vm')
              /\ Events.invoked vm' = (f, args) :: calls_of fs1 args ++ Events.invoked vm
              /\ Events._events vm' = Events._events vm.
Proof.
  intros Hc Hq Hf.
  destruct (emit_unfold production toLowerCase name hyphenate beh e args vm) as [ts ->].
  rewrite Hc, fmap_app, run_handlers_app, run_handlers_plain by done.
  cbn [fmap list_fmap Events.run_handlers Events.invoke]. simpl. rewrite Hf.
  by eexists.
Qed.

Lemma emit_stops_at_throw_witness :
  exists vm', Events.emit true as_is "" as_is failing_behaviour "tick" []
                (Events.on (Events.One "tick") (Events.Fn 3) ticking) = inr ("handler failed", vm')
              /\ Events.invoked vm' = [(2, []); (1, [])].
Proof.
  assert (Hc : Events.cbs_of (Events.on (Events.One "tick") (Events.Fn 3) ticking) "tick"
               = Some (Events.Fn <$> ([1] ++ 2 :: [3]))) by (vm_compute; reflexivity).
  assert (Hq : forall g, g ∈ [1] -> failing_behaviour g [] = None).
  { intros g Hg. apply list_elem_of_singleton in Hg as ->. reflexivity. }
  destruct (emit_stops_at_throw true as_is "" as_is failing_behaviour _ "tick" [1] 2 [3] []
              "handler failed" Hc Hq eq_refl) as (vm' & H1 & H2 & _).
  exists vm'. split; [exact H1|]. rewrite H2. reflexivity.
Defined.

(** ** Callback errors in [run] *)

(** X23. A throwing callback in [run]. [run] stores the new value before
    it calls the callback, so whatever the callback does the watcher holds
    the new value afterwards. On a watcher without the user flag the
    callback's error leaves [run] and nothing is reported. On a user watcher
    the error goes to [handleError] under the watcher's callback label, and
    [run] ends as [handleError] does. With a configured handler, that
    handler is called with the error, the scope and the label and nothing
    else is reported; [run] returns if the handler returns and throws what
    the handler throws. Without a handler the warning is given outside
    production; in an interactive context the error goes to
    [console.error] and [run] returns, otherwise the error leaves [run]. *)
Theorem run_callback_error (fuel : nat) (this : Watcher) (g : World) (v : JSValue) (st1 : St)
        (e : error) :
  active this = true ->
  get fuel (this, g) = Return v st1 ->
  fires this v = true ->
  cb this (heap st1.2) (vm this) v (value this) = Some e ->
  (user this = false ->
     exists st2, run fuel (this, g) = Throw e st2 /\ value st2.1 = v
                 /\ events is_report st2.2 = events is_report st1.2)
  /\ (user this = true -> forall handler, errorHandler (config g) = Some handler ->
        exists st2, run fuel (this, g)
                    = match handler e (vm this) (callback_info this) with
                      | None => Return tt st2
                      | Some e' => Throw e' st2
                      end
                    /\ value st2.1 = v
                    /\ events is_report st2.2
                       = EvErrorHandler e (vm this) (callback_info this)
                           :: events is_report st1.2)
  /\ (user this = true -> errorHandler (config g) = None ->
        exists st2, run fuel (this, g)
                    = (if interactive (config g) then Return tt st2 else Throw e st2)
                    /\ value st2.1 = v
                    /\ events is_report st2.2
                       = (if interactive (config g) then [EvConsoleError e] else [])
                           ++ error_warning (config g) e (vm this) (callback_info this)
                           ++ events is_report st1.2).
Proof.
  intros Ha Hget Hfi Hcb.
  assert (Hfr : frame (this, g) st1) by (apply (frame_get fuel); by rewrite Hget).
  destruct (frame_fields _ _ Hfr) as (Hvm & _ & Hval & _ & _ & Hdeep & Huser & _ & _ & Hex).
  assert (Hcbs : cb st1.1 = cb this) by (destruct Hfr as [-> _]; reflexivity).
  destruct Hfr as [_ (_ & _ & _ & _ & Hcfg)].
  cbn [fst snd] in *.
  unfold run. cbn [fst snd]. rewrite Ha, Hget. cbn [bind].
  rewrite Hval, Hdeep. fold (fires this v). rewrite Hfi.
  cbn [cb vm id user expression set_value heap emit]. rewrite Hcbs, Hvm, Hcb, Huser, Hex.
  fold (callback_info this).
  assert (Hc2 : config (emit (EvCallback (id st1.1) v (value this)) st1.2) = config g)
    by exact Hcfg.
  split_and!.
  - intros ->. by eexists.
  - intros -> h Hh. rewrite <- Hc2 in Hh.
    destruct (handleError_handled e (vm this) (callback_info this) (set_value v st1.1)
                (emit (EvCallback (id st1.1) v (value this)) st1.2) h Hh)
      as (g' & -> & _ & _ & Hr).
    eexists. split; [reflexivity|]. split; [done|]. cbn [snd]. by rewrite Hr.
  - intros -> Heh. rewrite <- Hc2 in Heh.
    destruct (handleError_unhandled e (vm this) (callback_info this) (set_value v st1.1)
                (emit (EvCallback (id st1.1) v (value this)) st1.2) Heh)
      as (g' & -> & _ & _ & Hr). rewrite Hc2 in Hr |- *.
    eexists. split; [reflexivity|]. split; [done|]. cbn [snd]. by rewrite Hr.
Qed.

Lemma run_callback_error_witness :
  exists st2, run 0 (failing_callback_watcher, world0 strict_config) = Throw "cb failed" st2
              /\ value st2.1 = VNum 1
              /\ events is_report st2.2
                 = [EvErrorHandler "cb failed" 1 (callback_info failing_callback_watcher)].
Proof.
  assert (Hget : get 0 (failing_callback_watcher, world0 strict_config)
                 = Return (VNum 1)
                     (state_of (failing_callback_watcher, world0 strict_config)
                        (get 0 (failing_callback_watcher, world0 strict_config))))
    by (vm_compute; reflexivity).
  destruct (run_callback_error 0 failing_callback_watcher (world0 strict_config) (VNum 1) _
              "cb failed" eq_refl Hget eq_refl eq_refl) as (_ & H & _).
  destruct (H eq_refl rethrowing_handler eq_refl) as (st2 & H1 & H2 & H3).
  exists st2. split; [exact H1|]. split; [exact H2|]. rewrite H3. reflexivity.
Defined.

(** ** What a deep traversal reads *)

Lemma reads_slots_refl (h : Heap) (w : Walk) : reads_slots h w w.
Proof.
  split; [done|]. exists []. rewrite app_nil_r. split; [done|].
  intros l o s d Hl. by apply elem_of_nil in Hl.
Qed.

Lemma reads_slots_trans (h : Heap) (a b c : Walk) :
  reads_slots h a b -> reads_slots h b c -> reads_slots h a c.
Proof.
  intros [Hr1 (e1 & He1 & Hc1)] [Hr2 (e2 & He2 & Hc2)]. split; [by auto|].
  exists (e1 ++ e2). split; [by rewrite He2, He1, app_assoc|].
  intros l o s d [Hl|Hl]%elem_of_app Ho Hs Hd; [|by eauto].
  apply Hr2. by eauto.
Qed.

Lemma reads_slots_walk_read (h : Heap) (ds : list nat) (w : Walk) :
  reads_slots h w (walk_read ds w).
Proof.
  split; [intros d Hd; simpl; set_solver|]. exists []. simpl. rewrite app_nil_r.
  split; [done|]. intros l o s d Hl. by apply elem_of_nil in Hl.
Qed.

Lemma read_slot_dep (h : Heap) (s : Slot) (d : nat) : slotDep s = Some d -> d ∈ read_slot h s.
Proof. intros Hd. unfold read_slot. rewrite Hd. by left. Qed.

Lemma _traverse_reads_slots (n : nat) (h : Heap) (v : JSValue) (w w' : Walk) :
  _traverse n h v w = Some w' -> reads_slots h w w'.
Proof.
  revert v w w'. induction n as [|n IH]; intros v w w'; [done|].
  destruct (_traverse_cases n h v w) as [->|(l & o & w1 & -> & Hl & He & Hw & ->)].
  - intros [= <-]. apply reads_slots_refl.
  - intros Hv.
    assert (Hw1 : reads w1 = reads w /\ entered w1 = entered w ++ [l]).
    { unfold walk_enter in Hw. destruct (__ob__ o); [destruct (bool_decide _); [done|]|];
        injection Hw as <-; done. }
    destruct Hw1 as [Hr1 He1].
    assert (Hloop : forall ss acc,
              visit_slots n h (Some acc) ss = Some w' ->
              (forall d, d ∈ reads acc -> d ∈ reads w')
              /\ (exists es, entered w' = entered acc ++ es
                             /\ forall l0 o0 s d, l0 ∈ es -> h !! l0 = Some o0 -> s ∈ slots o0 ->
                                                  slotDep s = Some d -> d ∈ reads w')
              /\ (forall s d, s ∈ ss -> slotDep s = Some d -> d ∈ reads w')).
    { induction ss as [|s ss IHs]; intros acc Hacc.
      - injection Hacc as <-. split; [done|]. split.
        + exists []. rewrite app_nil_r. split; [done|].
          intros l0 o0 s d Hl0. by apply elem_of_nil in Hl0.
        + intros s d Hs. by apply elem_of_nil in Hs.
      - rewrite visit_slots_cons in Hacc.
        destruct (_traverse n h (stored s) (walk_read (read_slot h s) acc)) as [w2|] eqn:E;
          [|by rewrite visit_slots_None in Hacc].
        destruct (IH _ _ _ E) as [Hm2 (e2 & He2 & Hc2)].
        destruct (IHs w2 Hacc) as (Hm3 & (e3 & He3 & Hc3) & Hs3).
        split_and!.
        + intros d Hd. apply Hm3, Hm2. simpl. set_solver.
        + exists (e2 ++ e3). split; [by rewrite He3, He2, app_assoc|].
          intros l0 o0 s0 d [Hl0|Hl0]%elem_of_app Ho0 Hs0 Hd0; [|by eauto].
          apply Hm3. by eauto.
        + intros s0 d [->|Hs0]%elem_of_cons Hd0; [|by eauto].
          apply Hm3, Hm2. simpl. apply elem_of_app. right. by apply read_slot_dep. }
    destruct (Hloop _ _ Hv) as (Hm & (es & Hes & Hc) & Hs).
    split; [intros d Hd; apply Hm; by rewrite Hr1|].
    exists (l :: es). split; [by rewrite Hes, He1, <- app_assoc|].
    intros l0 o0 s d [->|Hl0]%elem_of_cons Ho0 Hs0 Hd0; [|by eauto].
    rewrite Hl in Ho0. injection Ho0 as <-. apply (Hs s d); [|done].
    by apply elem_of_rev_slots.
Qed.

(** X24. A deep traversal touches every slot it passes. When [traverse]
    returns, every slot of every object it went into has been read: the
    subject of each reactive slot of each entered object is among the
    subjects the traversal registered, whichever order the slots were
    walked in. *)
Theorem traverse_reads_every_slot (fuel : nat) (h : Heap) (v : JSValue) (w : Walk)
        (l : nat) (o : Obj) (s : Slot) (d : nat) :
  traverse fuel h v = Some w ->
  l ∈ entered w -> h !! l = Some o -> s ∈ slots o -> slotDep s = Some d ->
  d ∈ reads w.
Proof.
  intros Ht Hl Ho Hs Hd.
  destruct (_traverse_reads_slots fuel h v _ w Ht) as [_ (es & Hes & Hc)].
  simpl in Hes. subst es. by eauto.
Qed.

Lemma traverse_reads_every_slot_witness :
  21 ∈ reads (mkWalk {[10; 11]} [20; 11; 21; 10] [0; 1]).
Proof.
  assert (Ht : traverse 3 ring_heap (VRef 0) = Some (mkWalk {[10; 11]} [20; 11; 21; 10] [0; 1]))
    by (vm_compute; reflexivity).
  apply (traverse_reads_every_slot 3 ring_heap (VRef 0) _ 1
           (mkObj false true (Some 11) [mkSlot "prev" (Some 21) (VRef 0)])
           (mkSlot "prev" (Some 21) (VRef 0)) 21 Ht).
  - simpl. set_solver.
  - reflexivity.
  - simpl. by left.
  - reflexivity.
Defined.

(** ** Evaluation after teardown *)


